(** * AI Tax Agent: the tax computation core

    A shallow embedding of [tax_logic.py] (bracket tables, [calculate_tax],
    [compute_liability]), of the field normaliser [to_float] and the
    aggregation loop of [app.py], of the plumbing of [pdf_parser.py] and of
    the lookups of [form1040_generator.py].

    The Python code is written against the numeric tower: it only adds,
    subtracts, multiplies, compares and calls [round(x, 2)].  The embedding
    keeps that shape: the program is defined once over an interface
    [PyNumber].

    - [binary64] is the arithmetic the interpreter runs: IEEE 754 double
      precision as specified by the standard library's [SpecFloat], with
      [round(x, 2)] as CPython computes it (the exact value of the double
      rounded half-even to two decimals, then the nearest double).  The
      laws of the program are stated and proved in it, for every double.
    - [decimal] is exact rational arithmetic with half-even rounding.  It is
      not what the code computes; it gives the value a statement about
      "decimals" denotes, against which the doubles are compared. *)

From Stdlib Require Import ZArith QArith Qround Qabs Qminmax Qpower Lqa Lia.
From Stdlib Require Import Bool List String Ascii.
From Stdlib Require Import Floats.SpecFloat.
Import ListNotations.

Local Open Scope Z_scope.

(* ------------------------------------------------------------------ *)
(** ** Python numbers *)

(** The operations the tax code uses on numbers.  An [int] that meets a
    float is converted first ([of_int]); the amounts of the tables are far
    below 2^53, where the conversion is exact. *)
Class PyNumber : Type := {
  num : Type;
  of_int : Z -> num;            (* an [int] operand in float arithmetic *)
  of_lit : Q -> num;            (* a decimal literal such as [0.12] *)
  add : num -> num -> num;
  sub : num -> num -> num;
  mul : num -> num -> num;
  gtb : num -> num -> bool;     (* [x > y] *)
  round2 : num -> num           (* [round(x, 2)] *)
}.

(** Integer nearest to [x], ties to the even neighbour: the rule of Python's
    [round]. *)
Definition round_half_even (x : Q) : Z :=
  let f := Qfloor x in
  match (x - inject_Z f ?= 1 # 2)%Q with
  | Lt => f
  | Gt => f + 1
  | Eq => if Z.even f then f else f + 1
  end.

(** *** Exact decimal arithmetic *)

Definition Qgtb (x y : Q) : bool :=
  match (x ?= y)%Q with Gt => true | _ => false end.

Definition Qround2 (x : Q) : Q :=
  Qred (round_half_even (x * 100) # 100).

#[export] Instance decimal : PyNumber := {|
  num := Q;
  of_int := inject_Z;
  of_lit := fun q => q;
  add := Qplus;
  sub := Qminus;
  mul := Qmult;
  gtb := Qgtb;
  round2 := Qround2
|}.

(** *** IEEE 754 binary64 *)

Module B64.

Definition prec : Z := 53.
Definition emax : Z := 1024.

Definition of_Z (z : Z) : spec_float := binary_normalize prec emax z 0 false.

(** The double nearest to [n / d]. For a literal both are small integers,
    so this is the correctly rounded value of the literal. *)
Definition of_Q (q : Q) : spec_float :=
  SFdiv prec emax (of_Z (Qnum q)) (of_Z (Zpos (Qden q))).

(** The rational a finite double denotes. *)
Definition to_Q (x : spec_float) : Q :=
  match x with
  | S754_finite s m e =>
      let v := match e with
               | Zneg p => (Zpos m # Pos.pow 2 p)%Q
               | _ => inject_Z (Zpos m * 2 ^ e)
               end in
      if s then Qopp v else v
  | _ => 0%Q
  end.

Definition gtb (x y : spec_float) : bool := SFltb y x.

(** [round(x, 2)] on a float: infinities and NaN are returned unchanged;
    a finite [x] is printed with two correctly rounded decimals (ties to
    even on the exact binary value) and read back as the nearest double.
    The sign of [x] is kept, so [round(-0.001, 2)] is [-0.0]. *)
Definition round2 (x : spec_float) : spec_float :=
  match x with
  | S754_finite s m e =>
      match round_half_even (to_Q (S754_finite false m e) * 100) with
      | Zpos n => SFdiv prec emax (S754_finite s n 0) (S754_finite false 100 0)
      | _ => S754_zero s
      end
  | _ => x
  end.

End B64.

#[export] Instance binary64 : PyNumber := {|
  num := spec_float;
  of_int := B64.of_Z;
  of_lit := B64.of_Q;
  add := SFadd B64.prec B64.emax;
  sub := SFsub B64.prec B64.emax;
  mul := SFmul B64.prec B64.emax;
  gtb := B64.gtb;
  round2 := B64.round2
|}.

(* ------------------------------------------------------------------ *)
(** ** Static tables *)

(** Upper bound of a band: an amount, or [float('inf')]. *)
Inductive bound : Type :=
| Fin (h : Z)
| Inf.

(** A band [(low, high, rate)]. *)
Record band : Type := Band { low : Z; high : bound; rate : Q }.

Definition dict (V : Type) : Type := list (string * V).

Fixpoint dict_get {V : Type} (d : dict V) (k : string) : option V :=
  match d with
  | [] => None
  | (k', v) :: d' => if String.eqb k k' then Some v else dict_get d' k
  end.

(** [k in d]. *)
Definition dict_mem {V : Type} (d : dict V) (k : string) : bool :=
  match dict_get d k with Some _ => true | None => false end.

(** [d.get(k, default)].  The subscript [d[k]] is read through it as well:
    every subscripted key of the program is present in its table, and the
    default only makes the function total. *)
Definition dict_get_default {V : Type} (d : dict V) (k : string) (default : V)
  : V :=
  match dict_get d k with Some v => v | None => default end.

Definition STANDARD_DEDUCTION : dict Z :=
  [ ("single"%string, 14600);
    ("married_filing_jointly"%string, 29200);
    ("married_filing_separately"%string, 14600);
    ("head_of_household"%string, 21900) ].

Definition single_brackets : list band :=
  [ Band 0 (Fin 11000) 0.10;
    Band 11000 (Fin 44725) 0.12;
    Band 44725 (Fin 95375) 0.22;
    Band 95375 (Fin 182100) 0.24;
    Band 182100 (Fin 231250) 0.32;
    Band 231250 (Fin 578125) 0.35;
    Band 578125 Inf 0.37 ].

Definition married_filing_jointly_brackets : list band :=
  [ Band 0 (Fin 22000) 0.10;
    Band 22000 (Fin 89450) 0.12;
    Band 89450 (Fin 190750) 0.22;
    Band 190750 (Fin 364200) 0.24;
    Band 364200 (Fin 462500) 0.32;
    Band 462500 (Fin 693750) 0.35;
    Band 693750 Inf 0.37 ].

Definition married_filing_separately_brackets : list band :=
  [ Band 0 (Fin 11000) 0.10;
    Band 11000 (Fin 44725) 0.12;
    Band 44725 (Fin 95375) 0.22;
    Band 95375 (Fin 182100) 0.24;
    Band 182100 (Fin 231250) 0.32;
    Band 231250 (Fin 346875) 0.35;
    Band 346875 Inf 0.37 ].

Definition head_of_household_brackets : list band :=
  [ Band 0 (Fin 15700) 0.10;
    Band 15700 (Fin 59850) 0.12;
    Band 59850 (Fin 95350) 0.22;
    Band 95350 (Fin 182100) 0.24;
    Band 182100 (Fin 231250) 0.32;
    Band 231250 (Fin 578100) 0.35;
    Band 578100 Inf 0.37 ].

Definition TAX_BRACKETS_2024 : dict (list band) :=
  [ ("single"%string, single_brackets);
    ("married_filing_jointly"%string, married_filing_jointly_brackets);
    ("married_filing_separately"%string, married_filing_separately_brackets);
    ("head_of_household"%string, head_of_household_brackets) ].

(** The four filing statuses and the key each has in the two tables. *)
Inductive FilingStatus : Type :=
| Single
| MarriedFilingJointly
| MarriedFilingSeparately
| HeadOfHousehold.

Definition status_key (st : FilingStatus) : string :=
  match st with
  | Single => "single"
  | MarriedFilingJointly => "married_filing_jointly"
  | MarriedFilingSeparately => "married_filing_separately"
  | HeadOfHousehold => "head_of_household"
  end.

(* ------------------------------------------------------------------ *)
(** ** Strings *)

(** Strings are byte strings.  [str.lower()] acts on the ASCII letters;
    every other byte is kept, so a string with a character outside ASCII
    stays different from the four keys, as it does in Python. *)
Definition lower_ascii (c : ascii) : ascii :=
  let n := nat_of_ascii c in
  if (65 <=? n)%nat && (n <=? 90)%nat then ascii_of_nat (n + 32) else c.

Fixpoint lower (s : string) : string :=
  match s with
  | EmptyString => EmptyString
  | String c s' => String (lower_ascii c) (lower s')
  end.

(** [s.replace(" ", "_")]. *)
Fixpoint replace_space (s : string) : string :=
  match s with
  | EmptyString => EmptyString
  | String c s' =>
      String (if Ascii.eqb c " " then "_"%char else c) (replace_space s')
  end.

(* ------------------------------------------------------------------ *)
(** ** Core computation *)

(** The dictionary [compute_liability] returns, one field per key. *)
Record TaxSummary {N : PyNumber} : Type := Summary {
  total_income : num;
  standard_deduction : Z;
  taxable_income : num;
  federal_tax_owed : num;
  federal_tax_withheld : num;
  refund_or_balance_due : num
}.

Section Core.

Context {N : PyNumber}.

(** The [for low, high, rate in brackets] loop with its accumulator [tax].
    [high - low] is a difference of two [int]s, exact before it meets the
    rate.  [income > float('inf')] is false for every number, so the last
    band always takes the [else] branch. *)
Fixpoint bracket_loop (income tax : num) (brackets : list band) : num :=
  match brackets with
  | [] => tax
  | Band low high rate :: rest =>
      match high with
      | Fin h =>
          if gtb income (of_int h)
          then bracket_loop income
                 (add tax (mul (of_int (h - low)) (of_lit rate))) rest
          else add tax (mul (sub income (of_int low)) (of_lit rate))
      | Inf => add tax (mul (sub income (of_int low)) (of_lit rate))
      end
  end.

Definition calculate_tax (income : num) (filing_status : string) : num :=
  let filing_status :=
    if negb (dict_mem TAX_BRACKETS_2024 filing_status)
    then "single"%string           (* default fallback *)
    else filing_status in
  let brackets := dict_get_default TAX_BRACKETS_2024 filing_status [] in
  round2 (bracket_loop income (of_int 0) brackets).

(** [sum(incomes)]: starts from [0] and adds left to right. *)
Definition sum (incomes : list num) : num :=
  fold_left add incomes (of_int 0).

(** [max(0, x)]: [x] replaces [0] only when [x > 0]. *)
Definition max0 (x : num) : num :=
  if gtb x (of_int 0) then x else of_int 0.

Definition compute_liability
    (filing_status : string) (incomes : list num) (withheld : num)
  : TaxSummary :=
  let filing_status := replace_space (lower filing_status) in
  let total_income := sum incomes in
  let deduction :=
    dict_get_default STANDARD_DEDUCTION filing_status
      (dict_get_default STANDARD_DEDUCTION "single" 0) in
  let taxable_income := max0 (sub total_income (of_int deduction)) in
  let tax := calculate_tax taxable_income filing_status in
  let refund := round2 (sub withheld tax) in
  {| total_income := round2 total_income;
     standard_deduction := deduction;
     taxable_income := round2 taxable_income;
     federal_tax_owed := round2 tax;
     federal_tax_withheld := round2 withheld;
     refund_or_balance_due := refund |}.

End Core.

(* ------------------------------------------------------------------ *)
(** ** Field normaliser ([app.py]) *)

Unset Elimination Schemes.
(** The values [json.loads] can put in a parsed document; [doc.get(name)]
    of a missing field is [None]. *)
Inductive pyvalue : Type :=
| VNone
| VBool (b : bool)
| VInt (z : Z)
| VFloat (x : spec_float)
| VStr (s : string)
| VList (l : list pyvalue)
| VDict (d : list (string * pyvalue)).
Set Elimination Schemes.

Inductive exn : Type := TypeError | ValueError | OverflowError.

Inductive result (A : Type) : Type :=
| Ok (a : A)
| Raise (e : exn).

Arguments Ok {A} a.
Arguments Raise {A} e.

Section ToFloat.

(** The builtin's reading of a string: [Some x] for the text of a number,
    [None] where [float(s)] raises [ValueError].  The grammar belongs to
    the interpreter and is left open. *)
Variable float_of_str : string -> option spec_float.

(** [float(n)] for an [int]: the nearest double, or [OverflowError] when
    that is not finite ("int too large to convert to float"). *)
Definition float_of_int (z : Z) : result spec_float :=
  match B64.of_Z z with
  | S754_infinity _ => Raise OverflowError
  | x => Ok x
  end.

(** The builtin [float(value)]. *)
Definition py_float (value : pyvalue) : result spec_float :=
  match value with
  | VNone => Raise TypeError
  | VBool b => Ok (B64.of_Z (if b then 1 else 0))
  | VInt z => float_of_int z
  | VFloat x => Ok x
  | VStr s =>
      match float_of_str s with
      | Some x => Ok x
      | None => Raise ValueError
      end
  | VList _ => Raise TypeError
  | VDict _ => Raise TypeError
  end.

Definition is_not_None (value : pyvalue) : bool :=
  match value with VNone => false | _ => true end.

(** [try: ... except (TypeError, ValueError): return 0.0]. *)
Definition to_float (value : pyvalue) : result spec_float :=
  match (if is_not_None value then py_float value else Ok (B64.of_Z 0)) with
  | Raise TypeError => Ok (B64.of_Z 0)
  | Raise ValueError => Ok (B64.of_Z 0)
  | r => r
  end.

End ToFloat.

(* ------------------------------------------------------------------ *)
(** ** Specification-side definitions *)

Definition brackets_of (st : FilingStatus) : list band :=
  match st with
  | Single => single_brackets
  | MarriedFilingJointly => married_filing_jointly_brackets
  | MarriedFilingSeparately => married_filing_separately_brackets
  | HeadOfHousehold => head_of_household_brackets
  end.

Definition deduction_of (st : FilingStatus) : Z :=
  match st with
  | Single => 14600
  | MarriedFilingJointly => 29200
  | MarriedFilingSeparately => 14600
  | HeadOfHousehold => 21900
  end.

(** The summary for a filing status given as a value of the enumeration:
    its own deduction and its own bands. *)
Definition liability_of {N : PyNumber}
    (st : FilingStatus) (incomes : list num) (withheld : num) : TaxSummary :=
  let total := sum incomes in
  let taxable := max0 (sub total (of_int (deduction_of st))) in
  let tax := round2 (bracket_loop taxable (of_int 0) (brackets_of st)) in
  {| total_income := round2 total;
     standard_deduction := deduction_of st;
     taxable_income := round2 taxable;
     federal_tax_owed := round2 tax;
     federal_tax_withheld := round2 withheld;
     refund_or_balance_due := round2 (sub withheld tax) |}.




(** A bracket table starting at [lo]: each band begins where the previous
    one ended, is not empty, has a rate in [0, 1), and the band with the
    unbounded upper end is the last one. *)
Fixpoint contiguous (lo : Z) (bands : list band) : Prop :=
  match bands with
  | [] => True
  | b :: rest =>
      low b = lo /\ (0 <= rate b)%Q /\ (rate b < 1)%Q /\
      match high b with
      | Fin h => lo < h /\ contiguous h rest
      | Inf => rest = []
      end
  end.

(** Progressive marginal tax as the specification words it. *)
Definition upper_below (income : Q) (b : band) : bool :=
  match high b with
  | Fin h => match (inject_Z h ?= income)%Q with Lt => true | _ => false end
  | Inf => false
  end.

Definition upper_reaches (income : Q) (b : band) : bool :=
  match high b with
  | Fin h => Qle_bool income (inject_Z h)
  | Inf => true
  end.

Definition full_band (b : band) : Q :=
  match high b with
  | Fin h => (inject_Z h - inject_Z (low b)) * rate b
  | Inf => 0
  end%Q.

Definition Qsum (l : list Q) : Q := fold_right Qplus 0%Q l.

Definition progressive_tax (bands : list band) (income : Q) : Q :=
  (Qsum (map full_band (filter (upper_below income) bands))
   + match find (upper_reaches income) bands with
     | Some b => (income - inject_Z (low b)) * rate b
     | None => 0
     end)%Q.


(* ------------------------------------------------------------------ *)
(** ** Aggregating parsed documents ([app.py], [index]) *)

(** A parsed document: the [dict] that [json.loads] built. *)
Definition document : Type := dict pyvalue.

(** [doc.get(name)]: the value, or [None]. *)
Definition doc_get (doc : document) (name : string) : pyvalue :=
  dict_get_default doc name VNone.

(** Sequencing with exceptions: the first one raised is the outcome. *)
Definition result_bind {A B : Type} (r : result A) (k : A -> result B)
  : result B :=
  match r with
  | Ok a => k a
  | Raise e => Raise e
  end.

Section Index.

Variable float_of_str : string -> option spec_float.

(** The loop [for doc in parsed_docs] with its two running totals.  The
    three incomes are converted left to right and added before they join
    the total; then the withholding is converted and added. *)
Fixpoint aggregate
    (parsed_docs : list document) (total_income withheld : spec_float)
  : result (spec_float * spec_float) :=
  match parsed_docs with
  | [] => Ok (total_income, withheld)
  | doc :: rest =>
      result_bind (to_float float_of_str (doc_get doc "wages"))
        (fun wages =>
      result_bind (to_float float_of_str (doc_get doc "interest_income"))
        (fun interest =>
      result_bind (to_float float_of_str (doc_get doc "nonemployee_compensation"))
        (fun compensation =>
      let total_income :=
        SFadd B64.prec B64.emax total_income
          (SFadd B64.prec B64.emax
             (SFadd B64.prec B64.emax wages interest) compensation) in
      result_bind
        (to_float float_of_str (doc_get doc "federal_income_tax_withheld"))
        (fun tax_withheld =>
      let withheld := SFadd B64.prec B64.emax withheld tax_withheld in
      aggregate rest total_income withheld))))
  end.

(** From the parsed documents to the summary: the totals start at [0], and
    the one total income is the only income component handed on.
    [form_status] is the form's [filing_status] field, if it was sent. *)
Definition index_summary
    (form_status : option string) (parsed_docs : list document)
  : result (TaxSummary (N := binary64)) :=
  let filing_status :=
    match form_status with Some s => s | None => "single"%string end in
  result_bind (aggregate parsed_docs (B64.of_Z 0) (B64.of_Z 0))
    (fun totals =>
       Ok (compute_liability (N := binary64)
             filing_status [fst totals] (snd totals))).

End Index.

(** The four fields [index] reads from a document. *)
Definition amount_fields : list string :=
  [ "wages"; "interest_income"; "nonemployee_compensation";
    "federal_income_tax_withheld" ]%string.

(** An [int] too large for a double. *)
Definition overflowing (v : pyvalue) : Prop :=
  exists z s, v = VInt z /\ B64.of_Z z = S754_infinity s.

(** A value [to_float] turns into [0.0]: absent, not the text of a number,
    or a container. *)
Definition unusable (float_of_str : string -> option spec_float)
    (v : pyvalue) : Prop :=
  v = VNone \/
  (exists s, v = VStr s /\ float_of_str s = None) \/
  (exists l, v = VList l) \/
  (exists d, v = VDict d).

(* ------------------------------------------------------------------ *)
(** ** The document parser ([pdf_parser.py]) *)

(** [d[k] = v]: the value of an existing key is replaced in place, a new
    key goes to the end. *)
Fixpoint dict_set {V : Type} (d : dict V) (k : string) (v : V) : dict V :=
  match d with
  | [] => [(k, v)]
  | (k', v') :: d' =>
      if String.eqb k k' then (k', v) :: d' else (k', v') :: dict_set d' k v
  end.

(** What the collaborators of [parse_single_document] can do for a file:
    text extraction (outside the [try]) raises; or the model call or
    [safe_json_parse] raises inside the [try], with a message; or
    [safe_json_parse] returns a dictionary (empty when it found no JSON). *)
Inductive parse_stage : Type :=
| ExtractionRaises
| ModelRaises (message : string)
| ModelJson (parsed : document).

Section Parser.

Variable basename : string -> string.      (* [os.path.basename] *)
Variable run_model : string -> parse_stage.

(** [None] stands for an exception that leaves the function. *)
Definition parse_single_document (file_path : string) : option document :=
  match run_model file_path with
  | ExtractionRaises => None
  | ModelJson parsed =>
      Some (dict_set parsed "file_name" (VStr (basename file_path)))
  | ModelRaises message =>
      Some [ ("file_name"%string, VStr (basename file_path));
             ("error"%string, VStr message) ]
  end.

(** [if parsed:] on a dictionary. *)
Definition truthy (parsed : document) : bool :=
  match parsed with [] => false | _ :: _ => true end.

Fixpoint parse_loop (file_paths : list string) (results : list document)
  : option (list document) :=
  match file_paths with
  | [] => Some results
  | path :: rest =>
      match parse_single_document path with
      | None => None
      | Some parsed =>
          parse_loop rest
            (if truthy parsed then results ++ [parsed] else results)
      end
  end.

Definition parse_multiple_documents (file_paths : list string)
  : option (dict (list document)) :=
  match parse_loop file_paths [] with
  | None => None
  | Some results => Some [("documents"%string, results)]
  end.

End Parser.

(* ------------------------------------------------------------------ *)
(** ** The form ([form1040_generator.py]) *)

(** The dictionary literal [compute_liability] returns. *)
Definition summary_dict (s : TaxSummary (N := binary64)) : dict pyvalue :=
  [ ("Total Income"%string, VFloat (total_income s));
    ("Standard Deduction"%string, VInt (standard_deduction s));
    ("Taxable Income"%string, VFloat (taxable_income s));
    ("Federal Tax Owed"%string, VFloat (federal_tax_owed s));
    ("Federal Tax Withheld"%string, VFloat (federal_tax_withheld s));
    ("Refund or Balance Due"%string, VFloat (refund_or_balance_due s)) ].

(** The values [generate_1040] looks up, before they are formatted: the
    filing status line, the six [fields] rows and the highlighted refund. *)
Definition form_filing_status (summary : dict pyvalue) : pyvalue :=
  dict_get_default summary "Filing Status" (VStr "N/A").

Definition form_fields (summary : dict pyvalue) : list (string * pyvalue) :=
  let zero := VFloat (B64.of_Z 0) in
  [ ("Total Income"%string, dict_get_default summary "Total Income" zero);
    ("Standard Deduction"%string,
       dict_get_default summary "Standard Deduction" zero);
    ("Taxable Income"%string, dict_get_default summary "Taxable Income" zero);
    ("Tax (Owed Before Withholding)"%string,
       dict_get_default summary "Federal Tax Owed" zero);
    ("Federal Tax Withheld"%string,
       dict_get_default summary "Federal Tax Withheld" zero);
    ("Refund / Amount Due"%string,
       dict_get_default summary "Refund or Balance Due" zero) ].

Definition form_refund (summary : dict pyvalue) : pyvalue :=
  dict_get_default summary "Refund or Balance Due" (VFloat (B64.of_Z 0)).

(** A document one of whose four amounts is an [int] too large for a
    double, and a document none of whose four amounts is usable. *)
Definition has_overflowing_amount (doc : document) : Prop :=
  exists name, In name amount_fields /\ overflowing (doc_get doc name).

Definition has_no_amount (float_of_str : string -> option spec_float)
    (doc : document) : Prop :=
  forall name, In name amount_fields -> unusable float_of_str (doc_get doc name).

(** A summary all of whose amounts are [0.0]. *)
Definition all_zero (s : TaxSummary (N := binary64)) : Prop :=
  total_income s = S754_zero false /\
  taxable_income s = S754_zero false /\
  federal_tax_owed s = S754_zero false /\
  federal_tax_withheld s = S754_zero false /\
  refund_or_balance_due s = S754_zero false.

(* ------------------------------------------------------------------ *)

(** ** Definitions for the double-precision laws *)

(** The double is NaN. *)
Definition is_nan (x : spec_float) : bool :=
  match x with S754_nan => true | _ => false end.

(** The place of a double in the order [SFcompare] decides: the class of
    its sign, then the exponent, then the mantissa (both negated for the
    negative doubles).  The two zeros have the same place. *)
Definition rank (x : spec_float) : Z * Z * Z :=
  match x with
  | S754_infinity true => (-2, 0, 0)
  | S754_finite true m e => (-1, - e, Zneg m)
  | S754_zero _ => (0, 0, 0)
  | S754_nan => (0, 0, 0)
  | S754_finite false m e => (1, e, Zpos m)
  | S754_infinity false => (2, 0, 0)
  end.

(** Lexicographic comparison of two places. *)
Definition lex3 (a b : Z * Z * Z) : comparison :=
  let '(a1, a2, a3) := a in
  let '(b1, b2, b3) := b in
  match a1 ?= b1 with
  | Eq => match a2 ?= b2 with Eq => a3 ?= b3 | c => c end
  | c => c
  end.

(** One place is strictly before the other. *)
Definition rank_lt (a b : Z * Z * Z) : Prop :=
  let '(a1, a2, a3) := a in
  let '(b1, b2, b3) := b in
  a1 < b1 \/ (a1 = b1 /\ (a2 < b2 \/ (a2 = b2 /\ a3 < b3))).

(** Progressive marginal tax as the specification words it, in double
    precision: the band's upper bound is strictly below the income. *)
Definition upper_below_binary64 (income : spec_float) (b : band) : bool :=
  match high b with
  | Fin h => SFltb (B64.of_Z h) income
  | Inf => false
  end.

(** The band's upper bound reaches the income. *)
Definition upper_reaches_binary64 (income : spec_float) (b : band) : bool :=
  match high b with
  | Fin h => SFleb income (B64.of_Z h)
  | Inf => true
  end.

(** [(upperBound - lowerBound) * rate], the difference taken on integers. *)
Definition full_band_binary64 (b : band) : spec_float :=
  match high b with
  | Fin h => SFmul B64.prec B64.emax (B64.of_Z (h - low b)) (B64.of_Q (rate b))
  | Inf => S754_zero false
  end.

(** [(income - lowerBound) * rate]. *)
Definition partial_band_binary64 (income : spec_float) (b : band) : spec_float :=
  SFmul B64.prec B64.emax
    (SFsub B64.prec B64.emax income (B64.of_Z (low b))) (B64.of_Q (rate b)).

(** The full bands below the income added from [0.0] in band order, then
    the part of the first band that reaches the income. *)
Definition progressive_tax_binary64 (bands : list band) (income : spec_float)
  : spec_float :=
  let below := filter (upper_below_binary64 income) bands in
  let acc := fold_left (SFadd B64.prec B64.emax)
               (map full_band_binary64 below) (B64.of_Z 0) in
  match find (upper_reaches_binary64 income) bands with
  | Some b => SFadd B64.prec B64.emax acc (partial_band_binary64 income b)
  | None => acc
  end.

(** The band's upper bound, as a double, is above the double of [h]. *)
Definition edge_above (h : Z) (b : band) : bool :=
  match high b with
  | Fin h' => SFltb (B64.of_Z h) (B64.of_Z h')
  | Inf => true
  end.

(** The upper bounds of a table, as doubles, ascend, and the unbounded band
    comes last. *)
Fixpoint ascending_binary64 (bands : list band) : bool :=
  match bands with
  | [] => true
  | b :: rest =>
      match high b with
      | Fin h =>
          negb (is_nan (B64.of_Z h)) && forallb (edge_above h) rest &&
          ascending_binary64 rest
      | Inf => match rest with [] => true | _ :: _ => false end
      end
  end.

(** A double that is not above zero (NaN compares above nothing). *)
Definition not_positive (x : spec_float) : Prop :=
  SFltb (S754_zero false) x = false.

(** The sign of a rounded result. *)
Definition signed (s : bool) (x : spec_float) : Prop :=
  match x with
  | S754_zero s' | S754_infinity s' | S754_finite s' _ _ => s' = s
  | S754_nan => False
  end.

(** [2 ^ e] as a rational, for any integer [e]. *)
Definition bpow (e : Z) : Q := (2 ^ e)%Q.

(** The rational [m * 2 ^ e]. *)
Definition F2Q (m e : Z) : Q := (inject_Z m * bpow e)%Q.

(** What a shift record says about the number [x] it stands for: [x] lies
    in [[m, m + 1)], and the round and sticky bits place it with respect to
    the midpoint. *)
Definition inbetween (r : shr_record) (x : Q) : Prop :=
  (match shr_r r, shr_s r with
   | false, false => x == inject_Z (shr_m r)
   | false, true => inject_Z (shr_m r) < x /\ x < inject_Z (shr_m r) + (1 # 2)
   | true, false => x == inject_Z (shr_m r) + (1 # 2)
   | true, true => inject_Z (shr_m r) + (1 # 2) < x /\ x < inject_Z (shr_m r) + 1
   end)%Q.

(** The positive double [m * 2 ^ e], or [+inf] beyond the largest exponent. *)
Definition finite_or_infinity (m e : Z) : spec_float :=
  if e <=? B64.emax - B64.prec
  then S754_finite false (Z.to_pos m) e
  else S754_infinity false.

(** The double with mantissa [n] at exponent [e], for [0 <= n <= 2 ^ 53]. *)
Definition pack (n e : Z) : spec_float :=
  if n =? 0 then S754_zero false
  else if n =? 2 ^ B64.prec
       then finite_or_infinity (2 ^ (B64.prec - 1)) (e + 1)
       else finite_or_infinity n e.

(** The double nearest to a positive [x] with [2 ^ (k - 1) <= x < 2 ^ k],
    ties to even. *)
Definition nearest (k : Z) (x : Q) : spec_float :=
  let e := fexp B64.prec B64.emax k in
  pack (round_half_even (x * bpow (- e))) e.

(** A double that is not NaN, not negative, and well formed. *)
Definition good (x : spec_float) : Prop :=
  valid_binary B64.prec B64.emax x = true /\ SFleb (S754_zero false) x = true.

(** A positive number between two consecutive powers of two, rounded. *)
Definition rounds_to (x : Q) (r : spec_float) : Prop :=
  exists k, (bpow (k - 1) <= x /\ x < bpow k)%Q /\ r = nearest k x.

(** A rate literal: a positive normal double. *)
Definition normal_rate (r : spec_float) : Prop :=
  match r with
  | S754_finite false m e => 2 ^ 52 <= Zpos m
  | _ => False
  end.

(** A lower band end: [0.0] or a positive well-formed double. *)
Definition low_ok (l : spec_float) : Prop :=
  match l with
  | S754_zero false => True
  | S754_finite false m e => bounded B64.prec B64.emax m e = true
  | _ => False
  end.

(** What the loop needs of a table whose first band starts at [lo], all of
    it checked on the doubles the table's integers and literals denote. *)
Fixpoint ready (lo : Z) (bands : list band) : Prop :=
  match bands with
  | [] => True
  | b :: rest =>
      low b = lo /\ low_ok (B64.of_Z lo) /\ normal_rate (B64.of_Q (rate b)) /\
      match high b with
      | Fin h =>
          good (B64.of_Z h) /\
          SFleb (B64.of_Z lo) (B64.of_Z h) = true /\
          SFsub B64.prec B64.emax (B64.of_Z h) (B64.of_Z lo) = B64.of_Z (h - lo) /\
          ready h rest
      | Inf => rest = []
      end
  end.

(** The double nearest to one cent above a band edge. *)
Definition cent_above (h : Z) : spec_float :=
  B64.of_Q (inject_Z h + 0.01).

(* ------------------------------------------------------------------ *)
(** * Properties *)

(** ** Rounding half-even *)

Local Open Scope Q_scope.

Lemma inject_Z_succ (n : Z) : inject_Z (n + 1) == inject_Z n + 1.
Proof. rewrite inject_Z_plus. reflexivity. Qed.

Lemma Zle_of_Qlt_succ (a b : Z) : inject_Z a < inject_Z b + 1 -> (a <= b)%Z.
Proof.
  intros H. rewrite <- inject_Z_succ, <- Zlt_Qlt in H. lia.
Qed.

Lemma round_half_even_cases (x : Q) :
  let f := Qfloor x in
  (x - inject_Z f < 1 # 2 /\ round_half_even x = f) \/
  (1 # 2 < x - inject_Z f /\ round_half_even x = (f + 1)%Z) \/
  (x - inject_Z f == 1 # 2 /\
   round_half_even x = if Z.even f then f else (f + 1)%Z).
Proof.
  intros f. unfold round_half_even. fold f.
  destruct (Qcompare_spec (x - inject_Z f) (1 # 2)) as [H | H | H]; auto.
Qed.

Lemma round_half_even_close (x : Q) :
  inject_Z (round_half_even x) - (1 # 2) <= x /\
  x <= inject_Z (round_half_even x) + (1 # 2).
Proof.
  pose proof (Qfloor_le x) as Hlo. pose proof (Qlt_floor x) as Hhi.
  rewrite inject_Z_succ in Hhi.
  destruct (round_half_even_cases x) as [[H ->] | [[H ->] | [H ->]]].
  - lra.
  - rewrite inject_Z_succ. lra.
  - destruct (Z.even (Qfloor x)); [|rewrite inject_Z_succ]; lra.
Qed.

Lemma round_half_even_unique (x : Q) (n : Z) :
  inject_Z n - (1 # 2) < x -> x < inject_Z n + (1 # 2) ->
  round_half_even x = n.
Proof.
  intros Hlo Hhi. destruct (round_half_even_close x) as [Hc1 Hc2].
  apply Z.le_antisymm; apply Zle_of_Qlt_succ; lra.
Qed.

Lemma round_half_even_int (n : Z) : round_half_even (inject_Z n) = n.
Proof. apply round_half_even_unique; lra. Qed.

Lemma round_half_even_comp (x y : Q) :
  x == y -> round_half_even x = round_half_even y.
Proof.
  intros H. unfold round_half_even.
  rewrite (Qfloor_comp x y H).
  now rewrite (Qcompare_comp (x - inject_Z (Qfloor y)) (y - inject_Z (Qfloor y))
                 ltac:(now rewrite H) (1 # 2) (1 # 2) ltac:(reflexivity)).
Qed.

Lemma round_half_even_mono (x y : Q) :
  x <= y -> (round_half_even x <= round_half_even y)%Z.
Proof.
  intros Hxy. pose proof (Qfloor_resp_le x y Hxy) as Hf.
  destruct (Z.eq_dec (Qfloor x) (Qfloor y)) as [Heq | Hne].
  - destruct (round_half_even_cases x) as [[Hx ->] | [[Hx ->] | [Hx ->]]];
      destruct (round_half_even_cases y) as [[Hy ->] | [[Hy ->] | [Hy ->]]];
      rewrite <- ?Heq in *; try destruct (Z.even (Qfloor x)); try lia;
      exfalso; lra.
  - assert (round_half_even x <= Qfloor x + 1)%Z.
    { destruct (round_half_even_cases x) as [[_ ->] | [[_ ->] | [_ ->]]];
        try destruct (Z.even (Qfloor x)); lia. }
    assert (Qfloor y <= round_half_even y)%Z.
    { destruct (round_half_even_cases y) as [[_ ->] | [[_ ->] | [_ ->]]];
        try destruct (Z.even (Qfloor y)); lia. }
    lia.
Qed.

(** [round(x, 2)] in exact arithmetic. *)




Local Close Scope Q_scope.

(** ** The static tables *)

Lemma brackets_lookup (st : FilingStatus) :
  dict_get TAX_BRACKETS_2024 (status_key st) = Some (brackets_of st).
Proof. destruct st; reflexivity. Qed.

Lemma deduction_lookup (st : FilingStatus) :
  dict_get STANDARD_DEDUCTION (status_key st) = Some (deduction_of st).
Proof. destruct st; reflexivity. Qed.

(** A key of either table is the key of one of the four statuses; the two
    tables have the same keys. *)
Lemma brackets_key (k : string) :
  (exists st, k = status_key st) \/
  (dict_get TAX_BRACKETS_2024 k = None /\ dict_get STANDARD_DEDUCTION k = None).
Proof.
  unfold TAX_BRACKETS_2024, STANDARD_DEDUCTION; simpl.
  destruct (String.eqb_spec k "single");
    [left; exists Single; assumption|].
  destruct (String.eqb_spec k "married_filing_jointly");
    [left; exists MarriedFilingJointly; assumption|].
  destruct (String.eqb_spec k "married_filing_separately");
    [left; exists MarriedFilingSeparately; assumption|].
  destruct (String.eqb_spec k "head_of_household");
    [left; exists HeadOfHousehold; assumption|].
  right; split; reflexivity.
Qed.

Lemma brackets_contiguous (st : FilingStatus) : contiguous 0 (brackets_of st).
Proof.
  destruct st; simpl;
    repeat match goal with
           | |- _ /\ _ => split
           | |- (_ <= _)%Q => discriminate
           | |- (_ < _)%Q => reflexivity
           | |- _ = _ => reflexivity
           | |- (_ < _)%Z => reflexivity
           | |- True => exact I
           end.
Qed.

Lemma bracket_tables_shape (st : FilingStatus) :
  (forall i b b',
      nth_error (brackets_of st) i = Some b ->
      nth_error (brackets_of st) (S i) = Some b' ->
      high b = Fin (low b') /\ low b < low b') /\
  (forall b, In b (brackets_of st) -> (0 <= rate b)%Q /\ (rate b < 1)%Q).
Proof.
  split.
  - intros i b b' Hb Hb'.
    destruct st; cbv [brackets_of] in Hb, Hb';
      do 7 (destruct i as [|i]; simpl in Hb, Hb';
            [ first [ discriminate Hb'
                    | injection Hb as <-; injection Hb' as <-;
                      split; reflexivity ] | ]);
      destruct i; discriminate.
  - intros b Hin.
    destruct st; simpl in Hin;
      repeat (destruct Hin as [<-|Hin]; [split; [discriminate|reflexivity]|]);
      contradiction.
Qed.

(** C6. For each of the four filing statuses the bracket table starts at 0,
    ends with the unbounded band, every band ends exactly where the next one
    begins (so the bands ascend without gap or overlap), and every rate lies
    in [0, 1). *)
Theorem bracket_tables_well_formed (st : FilingStatus) :
  exists t,
    dict_get TAX_BRACKETS_2024 (status_key st) = Some t /\
    (exists b, hd_error t = Some b /\ low b = 0) /\
    (exists b, nth_error t (List.length t - 1) = Some b /\ high b = Inf) /\
    (forall i b b',
        nth_error t i = Some b -> nth_error t (S i) = Some b' ->
        high b = Fin (low b') /\ low b < low b') /\
    (forall b, In b t -> (0 <= rate b)%Q /\ (rate b < 1)%Q).
Proof.
  exists (brackets_of st). split; [apply brackets_lookup|].
  split; [destruct st; eexists; split; reflexivity|].
  split; [destruct st; eexists; split; reflexivity|].
  exact (bracket_tables_shape st).
Qed.

(** ** Status normalisation *)



Section Normalisation.

Context {N : PyNumber}.

Lemma compute_liability_known (s : string) (st : FilingStatus) incomes withheld :
  replace_space (lower s) = status_key st ->
  compute_liability s incomes withheld = liability_of st incomes withheld.
Proof.
  intros Hs. unfold compute_liability, calculate_tax, liability_of.
  rewrite Hs. unfold dict_mem, dict_get_default.
  rewrite brackets_lookup, deduction_lookup. cbn [negb].
  rewrite brackets_lookup. reflexivity.
Qed.



End Normalisation.



(** ** A worked scenario *)

(** C3. [compute_liability("single", [60000], 8000)]: total income 60000.00,
    standard deduction 14600, taxable income 45400.00, federal tax owed
    5295.50, withheld 8000.00, refund 2704.50; in exact arithmetic and in
    double precision alike. *)
Theorem scenario_single_60000 :
  (let s := compute_liability (N := decimal) "single" [60000%Q] 8000%Q in
   (total_income s == 60000.00)%Q /\
   standard_deduction s = 14600 /\
   (taxable_income s == 45400.00)%Q /\
   (federal_tax_owed s == 5295.50)%Q /\
   (federal_tax_withheld s == 8000.00)%Q /\
   (refund_or_balance_due s == 2704.50)%Q) /\
  (let s := compute_liability (N := binary64)
              "single" [B64.of_Z 60000] (B64.of_Z 8000) in
   total_income s = B64.of_Q 60000.00 /\
   standard_deduction s = 14600 /\
   taxable_income s = B64.of_Q 45400.00 /\
   federal_tax_owed s = B64.of_Q 5295.50 /\
   federal_tax_withheld s = B64.of_Q 8000.00 /\
   refund_or_balance_due s = B64.of_Q 2704.50).
Proof.
  split; vm_compute; repeat split.
Qed.

(** ** [calculate_tax] *)

Lemma calculate_tax_key {N : PyNumber} (income : num) (st : FilingStatus) :
  calculate_tax income (status_key st) =
  round2 (bracket_loop income (of_int 0) (brackets_of st)).
Proof.
  unfold calculate_tax, dict_mem, dict_get_default.
  rewrite brackets_lookup. cbn [negb]. now rewrite brackets_lookup.
Qed.

(** Whatever the status string, the bands used are those of one of the four
    statuses (those of [Single] for an unknown string). *)
Lemma calculate_tax_table {N : PyNumber} (filing_status : string) :
  exists st, forall income,
    calculate_tax income filing_status =
    round2 (bracket_loop income (of_int 0) (brackets_of st)).
Proof.
  destruct (brackets_key filing_status) as [[st ->] | [Hb _]].
  - exists st. intros income. apply calculate_tax_key.
  - exists Single. intros income.
    unfold calculate_tax, dict_mem, dict_get_default. now rewrite Hb.
Qed.

Lemma calculate_tax_exact_key_any {N : PyNumber} (income : num) (s : string) :
  (forall st, s <> status_key st) ->
  calculate_tax income s = calculate_tax income "single".
Proof.
  intros Hs. destruct (brackets_key s) as [[st Hst] | [Hb _]];
    [now apply Hs in Hst|].
  unfold calculate_tax, dict_mem, dict_get_default. now rewrite Hb.
Qed.

(** [calculate_tax] looks its status up as it is: it does not lower-case it
    or replace spaces, so every string that is not literally one of the
    four keys is taxed with the bands of ["single"]. *)
Theorem calculate_tax_exact_key {N : PyNumber} (income : num) (s : string) :
  (forall st, s <> status_key st) ->
  calculate_tax income s = calculate_tax income "single".
Proof. apply calculate_tax_exact_key_any. Qed.

Lemma calculate_tax_exact_key_witness :
  calculate_tax (N := decimal) 100000%Q "Married Filing Jointly" =
  calculate_tax (N := decimal) 100000%Q "single".
Proof.
  apply (calculate_tax_exact_key (N := decimal)).
  intros st; destruct st; discriminate.
Defined.

(** ** Exact arithmetic, for reference *)

Section ExactArithmetic.

Local Open Scope Q_scope.



(** ** [compute_liability] *)









(** One cent below zero: the tax owed is (minus) zero, not a strictly
    negative amount, in exact arithmetic and in double precision alike. *)
Lemma calculate_tax_small_negative_income :
  - (0.01) < 0 /\
  ~ calculate_tax (N := decimal) (- (0.01)) "single" < 0 /\
  calculate_tax (N := binary64) (B64.of_Q (- (0.01))) "single" = S754_zero true /\
  SFltb (calculate_tax (N := binary64) (B64.of_Q (- (0.01))) "single")
        (B64.of_Z 0) = false.
Proof.
  split; [reflexivity|]. split; [|split].
  - vm_compute. discriminate.
  - vm_compute. reflexivity.
  - vm_compute. reflexivity.
Qed.

(** C2 fails: with 14602.50 of income and 0.125 withheld, the stored refund
    is -0.12 while the stored fields give 0.12 - 0.25 = -0.13; in exact
    arithmetic and in double precision alike. *)
Lemma refund_reconstruction_differs :
  (let s := compute_liability (N := decimal) "single" [14602.5] 0.125 in
   refund_or_balance_due s == - (0.12) /\
   Qround2 (federal_tax_withheld s - federal_tax_owed s) == - (0.13) /\
   Qround2 (federal_tax_withheld s - federal_tax_owed s) <>
   refund_or_balance_due s) /\
  (let s := compute_liability (N := binary64)
              "single" [B64.of_Q 14602.5] (B64.of_Q 0.125) in
   refund_or_balance_due s = B64.of_Q (- (0.12)) /\
   B64.round2 (SFsub B64.prec B64.emax
                 (federal_tax_withheld s) (federal_tax_owed s)) =
   B64.of_Q (- (0.13)) /\
   B64.round2 (SFsub B64.prec B64.emax
                 (federal_tax_withheld s) (federal_tax_owed s)) <>
   refund_or_balance_due s).
Proof.
  split; vm_compute; repeat split; discriminate.
Qed.

End ExactArithmetic.

(** ** Zero income *)

Lemma calculate_tax_zero_binary64 (st : FilingStatus) :
  calculate_tax (N := binary64) (B64.of_Z 0) (status_key st) = S754_zero false.
Proof. destruct st; vm_compute; reflexivity. Qed.

(* ------------------------------------------------------------------ *)
(** * Special values in double precision *)

Lemma SFsub_zero_r (x : spec_float) :
  SFsub B64.prec B64.emax x (S754_zero false) = x.
Proof. destruct x as [[|] | [|] | | [|] m e]; reflexivity. Qed.

Lemma SFadd_zero_l (x : spec_float) :
  x <> S754_zero true -> SFadd B64.prec B64.emax (S754_zero false) x = x.
Proof. destruct x as [[|] | [|] | | [|] m e]; try reflexivity. congruence. Qed.

Lemma calculate_tax_zero_any_binary64 (s : string) :
  calculate_tax (N := binary64) (S754_zero false) s = S754_zero false.
Proof.
  destruct (calculate_tax_table (N := binary64) s) as [st ->].
  destruct st; vm_compute; reflexivity.
Qed.

Lemma sum_nan (incomes : list spec_float) :
  In S754_nan incomes -> sum (N := binary64) incomes = S754_nan.
Proof.
  unfold sum. cbn [add of_int binary64].
  generalize (B64.of_Z 0) as acc.
  induction incomes as [|x rest IH]; intros acc Hin; [destruct Hin|].
  cbn [fold_left]. destruct Hin as [-> | Hin].
  - assert (Hnan : SFadd B64.prec B64.emax acc S754_nan = S754_nan)
      by (destruct acc as [[|] | [|] | | [|] m e]; reflexivity).
    rewrite Hnan. clear. induction rest as [|y rest IH]; [reflexivity|].
    cbn [fold_left]. exact IH.
  - now apply IH.
Qed.

(** Whenever [total - deduction > 0] is false in double precision - the
    income is within the deduction, or it is NaN - the taxable income and
    the tax owed are [0.0] and the refund is the stored withholding. *)
Theorem untaxed_binary64
    (filing_status : string) (incomes : list spec_float) (withheld : spec_float) :
  let s := compute_liability (N := binary64) filing_status incomes withheld in
  B64.gtb (SFsub B64.prec B64.emax (sum (N := binary64) incomes)
             (B64.of_Z (standard_deduction s))) (B64.of_Z 0) = false ->
  taxable_income s = S754_zero false /\
  federal_tax_owed s = S754_zero false /\
  refund_or_balance_due s = federal_tax_withheld s.
Proof.
  intros s. subst s.
  cbn [standard_deduction taxable_income federal_tax_owed
       federal_tax_withheld refund_or_balance_due compute_liability].
  set (d := dict_get_default STANDARD_DEDUCTION _ _).
  intros Hgt. unfold max0. cbn [gtb sub of_int round2 binary64].
  rewrite Hgt. change (B64.of_Z 0) with (S754_zero false).
  rewrite calculate_tax_zero_any_binary64.
  now rewrite SFsub_zero_r.
Qed.

Lemma untaxed_binary64_witness :
  let s := compute_liability (N := binary64) "single"
             [B64.of_Z 9000; B64.of_Z 5000] (B64.of_Q 1200.50) in
  taxable_income s = S754_zero false /\
  federal_tax_owed s = S754_zero false /\
  refund_or_balance_due s = federal_tax_withheld s.
Proof.
  apply (untaxed_binary64 "single" [B64.of_Z 9000; B64.of_Z 5000]
           (B64.of_Q 1200.50)).
  vm_compute. reflexivity.
Defined.

(** A NaN among the income components (the text "nan" converts to one) is
    not an error: the total income is NaN, yet the taxable income and the
    tax owed are [0.0] and the whole stored withholding is refunded. *)
Theorem nan_income_untaxed
    (filing_status : string) (incomes : list spec_float) (withheld : spec_float) :
  In S754_nan incomes ->
  let s := compute_liability (N := binary64) filing_status incomes withheld in
  total_income s = S754_nan /\
  taxable_income s = S754_zero false /\
  federal_tax_owed s = S754_zero false /\
  refund_or_balance_due s = federal_tax_withheld s.
Proof.
  intros Hin s. subst s.
  cbn [total_income taxable_income federal_tax_owed
       federal_tax_withheld refund_or_balance_due compute_liability].
  rewrite (sum_nan incomes Hin).
  unfold max0. cbn [gtb sub of_int round2 binary64].
  change (B64.of_Z 0) with (S754_zero false).
  change (B64.gtb (SFsub B64.prec B64.emax S754_nan _) (S754_zero false))
    with false.
  cbn iota. rewrite calculate_tax_zero_any_binary64.
  rewrite SFsub_zero_r. repeat split.
Qed.

Lemma nan_income_untaxed_witness :
  In S754_nan [B64.of_Z 60000; S754_nan] /\
  (let s := compute_liability (N := binary64) "single"
              [B64.of_Z 60000; S754_nan] (B64.of_Z 8000) in
   total_income s = S754_nan /\ federal_tax_owed s = S754_zero false).
Proof.
  assert (Hin : In S754_nan [B64.of_Z 60000; S754_nan])
    by (right; left; reflexivity).
  split; [exact Hin|].
  destruct (nan_income_untaxed "single" [B64.of_Z 60000; S754_nan]
              (B64.of_Z 8000) Hin) as (H1 & _ & H3 & _).
  split; [exact H1 | exact H3].
Defined.

(* ------------------------------------------------------------------ *)

(** * The order of the doubles *)

Section DoubleOrder.

Lemma SFcompare_rank (x y : spec_float) :
  is_nan x = false -> is_nan y = false ->
  SFcompare x y = Some (lex3 (rank x) (rank y)).
Proof.
  destruct x as [[|]|[|]| |[|] mx ex], y as [[|]|[|]| |[|] my ey];
    try discriminate; intros _ _; try reflexivity; cbn.
  - rewrite Z.compare_opp, (Z.compare_antisym ex ey).
    destruct (ex ?= ey); reflexivity.
Qed.

Lemma lex3_Lt (a1 a2 a3 b1 b2 b3 : Z) :
  lex3 (a1, a2, a3) (b1, b2, b3) = Lt <->
  a1 < b1 \/ (a1 = b1 /\ (a2 < b2 \/ (a2 = b2 /\ a3 < b3))).
Proof.
  unfold lex3.
  destruct (Z.compare_spec a1 b1), (Z.compare_spec a2 b2), (Z.compare_spec a3 b3);
    split; intros; try discriminate; try reflexivity; lia.
Qed.

Lemma lex3_Gt (a1 a2 a3 b1 b2 b3 : Z) :
  lex3 (a1, a2, a3) (b1, b2, b3) = Gt <->
  b1 < a1 \/ (b1 = a1 /\ (b2 < a2 \/ (b2 = a2 /\ b3 < a3))).
Proof.
  unfold lex3.
  destruct (Z.compare_spec a1 b1), (Z.compare_spec a2 b2), (Z.compare_spec a3 b3);
    split; intros; try discriminate; try reflexivity; lia.
Qed.

Lemma SFltb_rank (x y : spec_float) :
  SFltb x y = true <->
  is_nan x = false /\ is_nan y = false /\ rank_lt (rank x) (rank y).
Proof.
  destruct (is_nan x) eqn:Nx.
  { destruct x; try discriminate. split; [discriminate | intros [? _]; discriminate]. }
  destruct (is_nan y) eqn:Ny.
  { destruct y; try discriminate.
    split; [destruct x; discriminate | intros [_ [? _]]; discriminate]. }
  unfold SFltb. rewrite (SFcompare_rank x y Nx Ny).
  destruct (rank x) as [[a1 a2] a3], (rank y) as [[b1 b2] b3].
  pose proof (lex3_Lt a1 a2 a3 b1 b2 b3) as H. unfold rank_lt.
  destruct (lex3 (a1, a2, a3) (b1, b2, b3)); split; intros H0; try discriminate;
    try (repeat split; try reflexivity; apply H; reflexivity);
    destruct H0 as [_ [_ H0]]; apply H in H0; discriminate.
Qed.

Lemma SFleb_rank (x y : spec_float) :
  SFleb x y = true <->
  is_nan x = false /\ is_nan y = false /\ ~ rank_lt (rank y) (rank x).
Proof.
  destruct (is_nan x) eqn:Nx.
  { destruct x; try discriminate. split; [discriminate | intros [? _]; discriminate]. }
  destruct (is_nan y) eqn:Ny.
  { destruct y; try discriminate.
    split; [destruct x; discriminate | intros [_ [? _]]; discriminate]. }
  unfold SFleb. rewrite (SFcompare_rank x y Nx Ny).
  destruct (rank x) as [[a1 a2] a3], (rank y) as [[b1 b2] b3].
  pose proof (lex3_Gt a1 a2 a3 b1 b2 b3) as H. unfold rank_lt.
  destruct (lex3 (a1, a2, a3) (b1, b2, b3)); split; intros.
  - repeat split; try reflexivity. intros C. apply H in C. discriminate.
  - reflexivity.
  - repeat split; try reflexivity. intros C. apply H in C. discriminate.
  - reflexivity.
  - discriminate.
  - exfalso. destruct H0 as [_ [_ H0]]. apply H0. apply H. reflexivity.
Qed.

(** Order facts used by the band loop. *)

Ltac rank_facts :=
  repeat match goal with
  | H : SFltb _ _ = true |- _ => apply SFltb_rank in H; destruct H as [? [? H]]
  | H : SFleb _ _ = true |- _ => apply SFleb_rank in H; destruct H as [? [? H]]
  end.

Lemma SFltb_false (x y : spec_float) :
  is_nan x = false -> is_nan y = false ->
  SFltb x y = false <-> ~ rank_lt (rank x) (rank y).
Proof.
  intros Nx Ny. split.
  - intros H C. assert (SFltb x y = true) by (apply SFltb_rank; auto). congruence.
  - intros H. destruct (SFltb x y) eqn:E; [|reflexivity].
    apply SFltb_rank in E. tauto.
Qed.

Lemma SFleb_negb_SFltb (x y : spec_float) :
  is_nan x = false -> is_nan y = false -> SFleb x y = negb (SFltb y x).
Proof.
  intros Nx Ny. destruct (SFltb y x) eqn:E; cbn.
  - destruct (SFleb x y) eqn:E'; [|reflexivity].
    apply SFltb_rank in E. apply SFleb_rank in E'. tauto.
  - apply SFleb_rank. apply SFltb_false in E; auto.
Qed.

Lemma SFltb_trans (x y z : spec_float) :
  SFltb x y = true -> SFltb y z = true -> SFltb x z = true.
Proof.
  intros H1 H2. rank_facts. apply SFltb_rank. repeat split; auto.
  destruct (rank x) as [[a1 a2] a3], (rank y) as [[b1 b2] b3],
    (rank z) as [[c1 c2] c3]. unfold rank_lt in *. lia.
Qed.

Lemma SFleb_SFltb_trans (x y z : spec_float) :
  SFleb x y = true -> SFltb y z = true -> SFltb x z = true.
Proof.
  intros H1 H2. rank_facts. apply SFltb_rank. repeat split; auto.
  destruct (rank x) as [[a1 a2] a3], (rank y) as [[b1 b2] b3],
    (rank z) as [[c1 c2] c3]. unfold rank_lt in *. lia.
Qed.

Lemma SFltb_SFleb_trans (x y z : spec_float) :
  SFltb x y = true -> SFleb y z = true -> SFltb x z = true.
Proof.
  intros H1 H2. rank_facts. apply SFltb_rank. repeat split; auto.
  destruct (rank x) as [[a1 a2] a3], (rank y) as [[b1 b2] b3],
    (rank z) as [[c1 c2] c3]. unfold rank_lt in *. lia.
Qed.

Lemma SFleb_trans (x y z : spec_float) :
  SFleb x y = true -> SFleb y z = true -> SFleb x z = true.
Proof.
  intros H1 H2. rank_facts. apply SFleb_rank. repeat split; auto.
  destruct (rank x) as [[a1 a2] a3], (rank y) as [[b1 b2] b3],
    (rank z) as [[c1 c2] c3]. unfold rank_lt in *. lia.
Qed.

Lemma SFltb_irrefl_le (x y : spec_float) :
  SFleb x y = true -> SFltb y x = false.
Proof.
  intros H. destruct (SFltb y x) eqn:E; [|reflexivity].
  rank_facts. tauto.
Qed.

Lemma SFltb_SFleb (x y : spec_float) : SFltb x y = true -> SFleb x y = true.
Proof.
  intros H. rank_facts. apply SFleb_rank. repeat split; auto.
  destruct (rank x) as [[a1 a2] a3], (rank y) as [[b1 b2] b3].
  unfold rank_lt in *. lia.
Qed.

(** [x > h] false and [h < h'] give [x > h'] false, NaN included. *)
Lemma gtb_false_above (h h' x : spec_float) :
  SFltb h h' = true -> SFltb h x = false -> SFltb h' x = false.
Proof.
  intros H1 H2. destruct (SFltb h' x) eqn:E; [|reflexivity].
  rewrite (SFltb_trans _ _ _ H1 E) in H2. discriminate.
Qed.

End DoubleOrder.

(* ------------------------------------------------------------------ *)

(** * The progressive tax in double precision *)

Section ProgressiveTax.

Local Abbreviation fadd := (SFadd B64.prec B64.emax).
Local Abbreviation fsub := (SFsub B64.prec B64.emax).
Local Abbreviation fmul := (SFmul B64.prec B64.emax).
Local Abbreviation floop := (bracket_loop (N := binary64)).

Lemma floop_fin (x acc : spec_float) (l h : Z) (r : Q) (rest : list band) :
  floop x acc (Band l (Fin h) r :: rest) =
  if SFltb (B64.of_Z h) x
  then floop x (fadd acc (fmul (B64.of_Z (h - l)) (B64.of_Q r))) rest
  else fadd acc (fmul (fsub x (B64.of_Z l)) (B64.of_Q r)).
Proof. reflexivity. Qed.

Lemma floop_inf (x acc : spec_float) (l : Z) (r : Q) (rest : list band) :
  floop x acc (Band l Inf r :: rest) =
  fadd acc (fmul (fsub x (B64.of_Z l)) (B64.of_Q r)).
Proof. reflexivity. Qed.

Lemma brackets_ascending_binary64 (st : FilingStatus) :
  ascending_binary64 (brackets_of st) = true.
Proof. destruct st; vm_compute; reflexivity. Qed.

Lemma filter_below_nil_binary64 (x : spec_float) (h : Z) (rest : list band) :
  SFltb (B64.of_Z h) x = false ->
  forallb (edge_above h) rest = true ->
  filter (upper_below_binary64 x) rest = [].
Proof.
  intros Hx. induction rest as [|[l' [h'|] r'] rest IH]; intros Hall.
  - reflexivity.
  - cbn [forallb] in Hall. apply andb_prop in Hall as [Hh Hall].
    cbn [filter]. unfold upper_below_binary64 at 1. cbn [high].
    unfold edge_above in Hh. cbn [high] in Hh.
    rewrite (gtb_false_above _ _ _ Hh Hx). now apply IH.
  - cbn [forallb] in Hall. apply andb_prop in Hall as [_ Hall].
    cbn [filter]. unfold upper_below_binary64 at 1. cbn [high]. now apply IH.
Qed.

Lemma floop_progressive (x : spec_float) (bands : list band) :
  is_nan x = false -> ascending_binary64 bands = true ->
  forall acc,
    floop x acc bands =
    let below := filter (upper_below_binary64 x) bands in
    let acc' := fold_left fadd (map full_band_binary64 below) acc in
    match find (upper_reaches_binary64 x) bands with
    | Some b => fadd acc' (partial_band_binary64 x b)
    | None => acc'
    end.
Proof.
  intros Nx. induction bands as [|[l [h|] r] rest IH]; intros Hasc acc.
  - reflexivity.
  - cbn [ascending_binary64 high] in Hasc.
    apply andb_prop in Hasc as [Hasc Hrest].
    apply andb_prop in Hasc as [Hnan Hall].
    apply negb_true_iff in Hnan.
    rewrite floop_fin. cbv zeta. cbn [filter find].
    change (upper_below_binary64 x (Band l (Fin h) r))
      with (SFltb (B64.of_Z h) x).
    change (upper_reaches_binary64 x (Band l (Fin h) r))
      with (SFleb x (B64.of_Z h)).
    rewrite (SFleb_negb_SFltb x (B64.of_Z h) Nx Hnan).
    destruct (SFltb (B64.of_Z h) x) eqn:Hgt; cbn [negb].
    + rewrite (IH Hrest). reflexivity.
    + rewrite (filter_below_nil_binary64 x h rest Hgt Hall). reflexivity.
  - rewrite floop_inf. cbn [ascending_binary64 high] in Hasc.
    destruct rest; [|discriminate]. reflexivity.
Qed.

(** C1, as the code has it.  For each of the four filing statuses and every
    double [income] (negative, infinite and NaN included), [calculate_tax]
    returns [round(t, 2)] where [t] is the progressive marginal tax
    accumulated in double precision: starting from [0.0] it adds, in band
    order, [(upper - lower) * rate] for every band whose upper bound is
    strictly below the income, then [(income - lower) * rate] for the first
    band whose upper bound reaches the income; every product, difference
    and sum is rounded to the nearest double. *)
Theorem calculate_tax_progressive (st : FilingStatus) (income : spec_float) :
  calculate_tax (N := binary64) income (status_key st) =
  B64.round2 (progressive_tax_binary64 (brackets_of st) income).
Proof.
  rewrite calculate_tax_key. cbn [round2 binary64 of_int]. f_equal.
  destruct (is_nan income) eqn:Nx.
  - destruct income; try discriminate. destruct st; reflexivity.
  - apply (floop_progressive income (brackets_of st) Nx
             (brackets_ascending_binary64 st)).
Qed.

(** C1 fails when its amounts are read as exact decimals: for an income of
    44726.25 the progressive tax is 5147.275, which rounds to 5147.28, and
    the code returns 5147.27. *)
Lemma calculate_tax_progressive_inexact :
  calculate_tax (N := binary64) (B64.of_Q 44726.25) "single" = B64.of_Q 5147.27 /\
  (Qround2 (progressive_tax single_brackets 44726.25) == 5147.28)%Q /\
  calculate_tax (N := binary64) (B64.of_Q 44726.25) "single" <> B64.of_Q 5147.28.
Proof.
  split; [vm_compute; reflexivity|]. split; [vm_compute; reflexivity|].
  vm_compute. discriminate.
Qed.

End ProgressiveTax.

(* ------------------------------------------------------------------ *)

(** * Negative incomes *)

Section NegativeIncome.

Local Abbreviation fadd := (SFadd B64.prec B64.emax).
Local Abbreviation fsub := (SFsub B64.prec B64.emax).
Local Abbreviation fmul := (SFmul B64.prec B64.emax).
Local Abbreviation floop := (bracket_loop (N := binary64)).

Lemma iter_pos_inv {A : Type} (P : A -> Prop) (f : A -> A) :
  (forall a, P a -> P (f a)) -> forall n a, P a -> P (iter_pos f n a).
Proof.
  intros Hf. induction n as [n IH | n IH |]; intros a Ha; cbn [iter_pos]; auto.
Qed.

Lemma shr_1_nonneg (r : shr_record) : 0 <= shr_m r -> 0 <= shr_m (shr_1 r).
Proof.
  destruct r as [[|[p|p|]|p] rb sb]; cbn; intros H; lia.
Qed.

Lemma shr_nonneg (r : shr_record) (e n : Z) :
  0 <= shr_m r -> 0 <= shr_m (fst (shr r e n)).
Proof.
  intros H. destruct n as [|p|p]; cbn [shr fst]; auto.
  apply (iter_pos_inv (fun r => 0 <= shr_m r)); auto using shr_1_nonneg.
Qed.

Lemma shr_fexp_nonneg (m e : Z) (l : location) :
  0 <= m -> 0 <= shr_m (fst (shr_fexp B64.prec B64.emax m e l)).
Proof.
  intros H. unfold shr_fexp. apply shr_nonneg.
  destruct l as [|[| |]]; exact H.
Qed.

Lemma round_nearest_even_nonneg (m : Z) (l : location) :
  0 <= m -> 0 <= round_nearest_even m l.
Proof.
  intros H. destruct l as [|[| |]]; cbn; try lia.
  destruct (Z.even m); lia.
Qed.

Lemma binary_round_aux_signed (s : bool) (mx ex : Z) (lx : location) :
  0 <= mx -> signed s (binary_round_aux B64.prec B64.emax s mx ex lx).
Proof.
  intros H. unfold binary_round_aux.
  pose proof (shr_fexp_nonneg mx ex lx H) as H1.
  destruct (shr_fexp B64.prec B64.emax mx ex lx) as [mrs' e']. cbn [fst] in H1.
  pose proof (shr_fexp_nonneg _ e' loc_Exact
                (round_nearest_even_nonneg _ (loc_of_shr_record mrs') H1)) as H2.
  destruct (shr_fexp B64.prec B64.emax _ e' loc_Exact) as [mrs'' e''].
  cbn [fst] in H2.
  destruct (shr_m mrs'') as [|p|p]; [reflexivity | | lia].
  destruct (e'' <=? B64.emax - B64.prec); reflexivity.
Qed.

Lemma SFmul_signed (sx sy : bool) (mx my : positive) (ex ey : Z) :
  signed (xorb sx sy)
    (fmul (S754_finite sx mx ex) (S754_finite sy my ey)).
Proof. cbn [SFmul]. apply binary_round_aux_signed. lia. Qed.

Lemma SFdiv_signed (sx sy : bool) (mx my : positive) (ex ey : Z) :
  signed (xorb sx sy)
    (SFdiv B64.prec B64.emax (S754_finite sx mx ex) (S754_finite sy my ey)).
Proof.
  cbn [SFdiv]. unfold SFdiv_core_binary.
  set (m' := match _ - _ - _ with Z0 => Zpos mx | Zpos _ => _ | Zneg _ => 0 end).
  assert (Hm : 0 <= m').
  { subst m'. destruct (_ - _ - _); try lia. apply Z.shiftl_nonneg. lia. }
  pose proof (Z_div_mod m' (Zpos my) eq_refl) as Hd.
  destruct (Z.div_eucl m' (Zpos my)) as [q r].
  apply binary_round_aux_signed. nia.
Qed.

Lemma round2_signed (s : bool) (x : spec_float) :
  signed s x -> signed s (B64.round2 x).
Proof.
  destruct x as [s' | s' | | s' m e]; cbn [signed B64.round2]; auto.
  intros ->. destruct (round_half_even _); cbn [signed]; auto.
  replace s with (xorb s false) at 1 by (destruct s; reflexivity).
  apply SFdiv_signed.
Qed.

Lemma signed_not_positive (x : spec_float) : signed true x -> not_positive x.
Proof.
  destruct x as [[|] | [|] | | [|] m e]; cbn; intros H;
    try discriminate H; try contradiction; reflexivity.
Qed.

Lemma signed_not_nan (s : bool) (x : spec_float) : signed s x -> is_nan x = false.
Proof. destruct x; [reflexivity.. | intros [] | reflexivity]. Qed.

Lemma negative_cases (x : spec_float) :
  SFltb x (B64.of_Z 0) = true ->
  x = S754_infinity true \/ exists m e, x = S754_finite true m e.
Proof.
  destruct x as [[|] | [|] | | [|] m e]; try discriminate; eauto.
Qed.

(** A negative income is below every band edge. *)
Lemma negative_first_band (x : spec_float) (h : Z) :
  SFltb x (B64.of_Z 0) = true ->
  SFltb (B64.of_Z h) (B64.of_Z 0) = false ->
  SFltb (B64.of_Z h) x = false.
Proof.
  intros Hx Hh. destruct (SFltb (B64.of_Z h) x) eqn:E; [|reflexivity].
  rewrite (SFltb_trans _ _ _ E Hx) in Hh. discriminate.
Qed.

Lemma calculate_tax_negative (st : FilingStatus) (income : spec_float) :
  SFltb income (B64.of_Z 0) = true ->
  calculate_tax (N := binary64) income (status_key st) =
  B64.round2 (fadd (B64.of_Z 0) (fmul income (B64.of_Q 0.10))).
Proof.
  intros Hneg. rewrite calculate_tax_key. cbn [round2 binary64 of_int]. f_equal.
  destruct st; cbv [brackets_of single_brackets married_filing_jointly_brackets
                    married_filing_separately_brackets head_of_household_brackets];
    rewrite floop_fin;
    rewrite (negative_first_band income) by first [exact Hneg | reflexivity];
    change (B64.of_Z 0) with (S754_zero false); now rewrite SFsub_zero_r.
Qed.

Lemma negative_tax_signed (income : spec_float) :
  SFltb income (B64.of_Z 0) = true ->
  let tax := B64.round2 (fadd (B64.of_Z 0) (fmul income (B64.of_Q 0.10))) in
  tax = S754_zero false \/ signed true tax.
Proof.
  intros Hneg tax. subst tax.
  destruct (negative_cases income Hneg) as [-> | (m & e & ->)].
  - right. reflexivity.
  - pose proof (SFmul_signed true false m 7205759403792794 e (-56)) as Hm.
    change (S754_finite false 7205759403792794 (-56)) with (B64.of_Q 0.10) in Hm.
    destruct (fmul _ _) as [s' | s' | | s' m' e']; cbn [signed xorb] in Hm;
      try contradiction; subst s'.
    + left. reflexivity.
    + right. reflexivity.
    + right. change (B64.of_Z 0) with (S754_zero false).
      rewrite SFadd_zero_l by discriminate. now apply round2_signed.
Qed.

(** C10, as the code has it.  [calculate_tax] does not clamp its income:
    for every filing status and every negative double it returns
    [round(0.0 + income * 0.10, 2)], the first band's branch, and no error.
    That value is a number and is never positive; it need not be strictly
    negative ([-0.0] for an income of -0.01). *)
Theorem calculate_tax_negative_income (st : FilingStatus) (income : spec_float) :
  SFltb income (B64.of_Z 0) = true ->
  let tax := calculate_tax (N := binary64) income (status_key st) in
  tax = B64.round2 (fadd (B64.of_Z 0) (fmul income (B64.of_Q 0.10))) /\
  is_nan tax = false /\
  not_positive tax.
Proof.
  intros Hneg tax. subst tax. rewrite (calculate_tax_negative st income Hneg).
  split; [reflexivity|].
  destruct (negative_tax_signed income Hneg) as [-> | Hs].
  - split; reflexivity.
  - split; [exact (signed_not_nan _ _ Hs) | exact (signed_not_positive _ Hs)].
Qed.

Lemma calculate_tax_negative_income_witness :
  SFltb (B64.of_Z (-1000)) (B64.of_Z 0) = true /\
  calculate_tax (N := binary64) (B64.of_Z (-1000)) "head_of_household" =
  B64.of_Z (-100).
Proof.
  split; [reflexivity|].
  destruct (calculate_tax_negative_income HeadOfHousehold (B64.of_Z (-1000)) eq_refl)
    as (H & _ & _).
  cbv zeta in H. cbn [status_key] in H. rewrite H. vm_compute. reflexivity.
Defined.

End NegativeIncome.

(* ------------------------------------------------------------------ *)

(** * Rounding to the nearest double *)

(** ** Powers of two *)

Section PowersOfTwo.

Local Open Scope Q_scope.

Lemma two_neq_0 : ~ 2 == 0.
Proof. discriminate. Qed.

Lemma bpow_pos (e : Z) : 0 < bpow e.
Proof. apply Qpower_0_lt. reflexivity. Qed.

Lemma bpow_add (a b : Z) : bpow (a + b) == bpow a * bpow b.
Proof. apply Qpower_plus, two_neq_0. Qed.

Lemma bpow_0 : bpow 0 == 1.
Proof. reflexivity. Qed.

Lemma bpow_1 : bpow 1 == 2.
Proof. reflexivity. Qed.

Lemma bpow_m1 : bpow (-1) == 1 # 2.
Proof. reflexivity. Qed.

Lemma bpow_opp (e : Z) : bpow (- e) * bpow e == 1.
Proof. rewrite <- bpow_add. now replace (- e + e)%Z with 0%Z by lia. Qed.

Lemma bpow_Z (e : Z) : (0 <= e)%Z -> bpow e == inject_Z (2 ^ e).
Proof. intros H. unfold bpow. now rewrite Zpower_Qpower. Qed.

Lemma bpow_le (a b : Z) : (a <= b)%Z -> bpow a <= bpow b.
Proof. intros H. apply Qpower_le_compat_l; [exact H | discriminate]. Qed.

Lemma bpow_lt (a b : Z) : (a < b)%Z -> bpow a < bpow b.
Proof. intros H. apply Qpower_lt_compat_l; [exact H | reflexivity]. Qed.

Lemma bpow_lt_inv (a b : Z) : bpow a < bpow b -> (a < b)%Z.
Proof. intros H. apply (Qpower_lt_compat_l_inv 2); [exact H | reflexivity]. Qed.

Lemma bpow_succ (e : Z) : bpow (e + 1) == 2 * bpow e.
Proof. rewrite bpow_add, bpow_1. ring. Qed.

Lemma bpow_pred (e : Z) : bpow (e - 1) == (1 # 2) * bpow e.
Proof.
  replace (e - 1)%Z with (e + -1)%Z by lia. rewrite bpow_add, bpow_m1. ring.
Qed.

(** Scaling by a power of two and back. *)
Lemma scale_cancel (x : Q) (e : Z) : x * bpow (- e) * bpow e == x.
Proof. rewrite <- Qmult_assoc, bpow_opp. ring. Qed.

Lemma scale_le (x y : Q) (e : Z) : x <= y -> x * bpow e <= y * bpow e.
Proof. intros H. apply Qmult_le_compat_r; [exact H | apply Qlt_le_weak, bpow_pos]. Qed.

Lemma scale_lt (x y : Q) (e : Z) : x < y -> x * bpow e < y * bpow e.
Proof. intros H. apply Qmult_lt_compat_r; [apply bpow_pos | exact H]. Qed.

(** ** Number of binary digits *)

Local Open Scope Z_scope.

Lemma digits2_pos_bounds (m : positive) :
  2 ^ (Zpos (digits2_pos m) - 1) <= Zpos m < 2 ^ Zpos (digits2_pos m).
Proof.
  induction m as [m IH | m IH |]; cbn [digits2_pos].
  - rewrite Pos2Z.inj_succ. replace (Z.succ (Zpos (digits2_pos m)) - 1)
      with (Z.succ (Zpos (digits2_pos m) - 1)) by lia.
    rewrite !Z.pow_succ_r by lia. rewrite Pos2Z.inj_xI. lia.
  - rewrite Pos2Z.inj_succ. replace (Z.succ (Zpos (digits2_pos m)) - 1)
      with (Z.succ (Zpos (digits2_pos m) - 1)) by lia.
    rewrite !Z.pow_succ_r by lia. change (Zpos m~0) with (2 * Zpos m). lia.
  - cbn. lia.
Qed.

Lemma digits2_pos_unique (m : positive) (d : Z) :
  2 ^ (d - 1) <= Zpos m < 2 ^ d -> Zpos (digits2_pos m) = d.
Proof.
  intros [Hlo Hhi]. destruct (digits2_pos_bounds m) as [Hlo' Hhi'].
  assert (Hd : 0 < d).
  { destruct (Z.ltb_spec 0 d) as [|Hd]; [assumption|]. exfalso.
    destruct (Z.eq_dec d 0) as [-> | Hne]; [cbn in Hhi; lia|].
    rewrite (Z.pow_neg_r 2 d) in Hhi by lia. lia. }
  destruct (Z.lt_trichotomy (Zpos (digits2_pos m)) d) as [H | [H | H]];
    [| exact H |].
  - assert (2 ^ Zpos (digits2_pos m) <= 2 ^ (d - 1))
      by (apply Z.pow_le_mono_r; lia). lia.
  - assert (2 ^ d <= 2 ^ (Zpos (digits2_pos m) - 1))
      by (apply Z.pow_le_mono_r; lia). lia.
Qed.

End PowersOfTwo.

Ltac fexp_lia :=
  unfold fexp, emin, B64.prec, B64.emax in *; lia.

(* ------------------------------------------------------------------ *)

(** ** Shift records *)

Section ShiftRecords.

Local Open Scope Q_scope.

Lemma Qfloor_unique (x : Q) (m : Z) :
  inject_Z m <= x -> x < inject_Z m + 1 -> Qfloor x = m.
Proof.
  intros Hlo Hhi. pose proof (Qfloor_le x) as H1. pose proof (Qlt_floor x) as H2.
  rewrite inject_Z_succ in H2.
  apply Z.le_antisymm; apply Zle_of_Qlt_succ; lra.
Qed.

Lemma inbetween_bounds (r : shr_record) (x : Q) :
  inbetween r x -> inject_Z (shr_m r) <= x /\ x < inject_Z (shr_m r) + 1.
Proof.
  unfold inbetween. destruct (shr_r r), (shr_s r); intros H; lra.
Qed.

Lemma inbetween_comp (r : shr_record) (x y : Q) :
  x == y -> inbetween r x -> inbetween r y.
Proof.
  unfold inbetween. intros E. destruct (shr_r r), (shr_s r); intros H; lra.
Qed.

Lemma inject_Z_xO (p : positive) : inject_Z (Zpos p~0) == 2 * inject_Z (Zpos p).
Proof. change (Zpos p~0) with (2 * Zpos p)%Z. now rewrite inject_Z_mult. Qed.

Lemma inject_Z_xI (p : positive) : inject_Z (Zpos p~1) == 2 * inject_Z (Zpos p) + 1.
Proof.
  change (Zpos p~1) with (2 * Zpos p + 1)%Z.
  now rewrite inject_Z_plus, inject_Z_mult.
Qed.

Lemma shr_1_inbetween (r : shr_record) (x : Q) :
  (0 <= shr_m r)%Z -> inbetween r x -> inbetween (shr_1 r) (x * (1 # 2)).
Proof.
  destruct r as [[|[p|p|]|p] rb sb]; cbn [shr_m]; intros Hm; [ | | | | lia];
    unfold inbetween; cbn [shr_1 shr_m shr_r shr_s];
    try (pose proof (inject_Z_xO p) as HO; pose proof (inject_Z_xI p) as HI);
    change (inject_Z 0) with 0; change (inject_Z 1) with 1;
    destruct rb, sb; cbn [orb]; intros H; lra.
Qed.

Lemma iter_shr_1_inbetween (n : positive) :
  forall (r : shr_record) (x : Q),
    (0 <= shr_m r)%Z -> inbetween r x ->
    (0 <= shr_m (iter_pos shr_1 n r))%Z /\
    inbetween (iter_pos shr_1 n r) (x * bpow (- Zpos n)).
Proof.
  assert (Hstep : forall r x, (0 <= shr_m r)%Z -> inbetween r x ->
            (0 <= shr_m (shr_1 r))%Z /\ inbetween (shr_1 r) (x * bpow (- 1))).
  { intros r x Hm H. split.
    - destruct r as [[|[p|p|]|p] rb sb]; cbn in *; lia.
    - apply (inbetween_comp _ (x * (1 # 2))); [now rewrite bpow_m1|].
      now apply shr_1_inbetween. }
  induction n as [n IH | n IH |]; intros r x Hm H; cbn [iter_pos].
  - destruct (Hstep r x Hm H) as [Hm1 H1].
    destruct (IH _ _ Hm1 H1) as [Hm2 H2].
    destruct (IH _ _ Hm2 H2) as [Hm3 H3].
    split; [exact Hm3|].
    apply (inbetween_comp _ _ (x * bpow (- Zpos n~1))) in H3; [exact H3|].
    replace (- Zpos n~1)%Z with (-1 + (- Zpos n + - Zpos n))%Z by lia.
    rewrite !bpow_add. ring.
  - destruct (IH _ _ Hm H) as [Hm2 H2].
    destruct (IH _ _ Hm2 H2) as [Hm3 H3].
    split; [exact Hm3|].
    apply (inbetween_comp _ _ (x * bpow (- Zpos n~0))) in H3; [exact H3|].
    replace (- Zpos n~0)%Z with (- Zpos n + - Zpos n)%Z by lia.
    rewrite !bpow_add. ring.
  - now apply Hstep.
Qed.

Lemma round_nearest_even_inbetween (r : shr_record) (x : Q) :
  inbetween r x ->
  round_nearest_even (shr_m r) (loc_of_shr_record r) = round_half_even x.
Proof.
  destruct r as [m rb sb]. unfold inbetween. cbn [shr_m shr_r shr_s].
  destruct rb, sb; cbn [loc_of_shr_record round_nearest_even]; intros H.
  - symmetry. apply round_half_even_unique; rewrite ?inject_Z_succ; lra.
  - assert (Hf : Qfloor x = m) by (apply Qfloor_unique; lra).
    destruct (round_half_even_cases x) as [[Hx _] | [[Hx _] | [_ ->]]];
      rewrite Hf in *; try lra. reflexivity.
  - symmetry. apply round_half_even_unique; lra.
  - rewrite (round_half_even_comp x (inject_Z m) H). now rewrite round_half_even_int.
Qed.

Lemma inbetween_record_of_loc_exact (m : Z) :
  inbetween (shr_record_of_loc m loc_Exact) (inject_Z m).
Proof. unfold inbetween. cbn. reflexivity. Qed.

Lemma shr_m_record_of_loc (m : Z) (l : location) :
  shr_m (shr_record_of_loc m l) = m.
Proof. destruct l as [|[| |]]; reflexivity. Qed.

(** Bounds of the scaled mantissa. *)
Lemma round_half_even_le_pow (y : Q) (j : Z) :
  (0 <= j)%Z -> y < bpow j -> (round_half_even y <= 2 ^ j)%Z.
Proof.
  intros Hj Hy. rewrite <- (round_half_even_int (2 ^ j)).
  apply round_half_even_mono. rewrite <- bpow_Z by exact Hj. lra.
Qed.

Lemma round_half_even_ge_pow (y : Q) (j : Z) :
  (0 <= j)%Z -> bpow j <= y -> (2 ^ j <= round_half_even y)%Z.
Proof.
  intros Hj Hy. rewrite <- (round_half_even_int (2 ^ j)).
  apply round_half_even_mono. rewrite <- bpow_Z by exact Hj. lra.
Qed.

Lemma round_half_even_nonneg (y : Q) : 0 <= y -> (0 <= round_half_even y)%Z.
Proof.
  intros H. rewrite <- (round_half_even_int 0).
  now apply round_half_even_mono.
Qed.

(** The magnitude of a number given by a mantissa and a position. *)
Lemma mantissa_bounds (mx : positive) (ex : Z) (X : Q) :
  inject_Z (Zpos mx) <= X -> X < inject_Z (Zpos mx) + 1 ->
  let k := (Zpos (digits2_pos mx) + ex)%Z in
  bpow (k - 1) <= X * bpow ex /\ X * bpow ex < bpow k.
Proof.
  intros Hlo Hhi k. subst k.
  destruct (digits2_pos_bounds mx) as [Hd1 Hd2].
  set (d := Zpos (digits2_pos mx)) in *.
  assert (Hd : (0 < d)%Z) by (subst d; lia).
  replace (d + ex - 1)%Z with ((d - 1) + ex)%Z by lia.
  rewrite !bpow_add, (bpow_Z (d - 1)), (bpow_Z d) by lia.
  assert (H2 : inject_Z (Zpos mx) + 1 <= inject_Z (2 ^ d)).
  { rewrite <- inject_Z_succ, <- Zle_Qle. lia. }
  rewrite Zle_Qle in Hd1.
  split.
  - apply scale_le. lra.
  - apply scale_lt. lra.
Qed.

End ShiftRecords.

(* ------------------------------------------------------------------ *)

(** ** [binary_round_aux] rounds to nearest, ties to even *)

Section RoundAux.

Lemma shr_nonpos (r : shr_record) (e n : Z) : n <= 0 -> shr r e n = (r, e).
Proof. destruct n; [reflexivity | lia | reflexivity]. Qed.

Lemma fexp_ge_emin (k : Z) : -1074 <= fexp B64.prec B64.emax k.
Proof. fexp_lia. Qed.

Lemma fexp_mono (k k' : Z) :
  k <= k' -> fexp B64.prec B64.emax k <= fexp B64.prec B64.emax k'.
Proof. fexp_lia. Qed.

Lemma pow_prec_le (j : Z) : j <= 53 -> 2 ^ Z.max j 0 <= 2 ^ 53.
Proof. intros H. apply Z.pow_le_mono_r; lia. Qed.

Local Open Scope Q_scope.

(** The first shift of [binary_round_aux]. *)
Lemma shr_first (mx : positive) (ex e1 : Z) (lx : location) (X : Q) :
  inbetween (shr_record_of_loc (Zpos mx) lx) X ->
  (ex <= e1)%Z ->
  exists r1,
    shr (shr_record_of_loc (Zpos mx) lx) ex (e1 - ex) = (r1, e1) /\
    (0 <= shr_m r1)%Z /\
    inbetween r1 (X * bpow ex * bpow (- e1)).
Proof.
  intros HX He.
  assert (Hm : (0 <= shr_m (shr_record_of_loc (Zpos mx) lx))%Z)
    by (rewrite shr_m_record_of_loc; lia).
  destruct (e1 - ex)%Z as [|p|p] eqn:E; [ | | lia].
  - assert (ex = e1) by lia. subst e1. eexists. split; [reflexivity|].
    split; [exact Hm|].
    apply (inbetween_comp _ X); [|exact HX].
    rewrite <- Qmult_assoc, (Qmult_comm (bpow ex)), bpow_opp. ring.
  - destruct (iter_shr_1_inbetween p _ X Hm HX) as [Hm1 H1].
    eexists. split; [cbn [shr]; f_equal; lia|]. split; [exact Hm1|].
    apply (inbetween_comp _ (X * bpow (- Zpos p))); [|exact H1].
    rewrite <- Qmult_assoc, <- bpow_add.
    now replace (ex + - e1)%Z with (- Zpos p)%Z by lia.
Qed.

Lemma scaled_bounds (x : Q) (k e1 : Z) :
  bpow (k - 1) <= x -> x < bpow k ->
  bpow (k - 1 - e1) <= x * bpow (- e1) /\ x * bpow (- e1) < bpow (k - e1).
Proof.
  intros H1 H2.
  replace (k - 1 - e1)%Z with (k - 1 + - e1)%Z by lia.
  replace (k - e1)%Z with (k + - e1)%Z by lia.
  rewrite !bpow_add. split; [now apply scale_le | now apply scale_lt].
Qed.

(** The mantissa the rounding produces when the number has magnitude [k]. *)
Lemma scaled_mantissa_bounds (x : Q) (k : Z) :
  bpow (k - 1) <= x -> x < bpow k ->
  let e1 := fexp B64.prec B64.emax k in
  let n := round_half_even (x * bpow (- e1)) in
  (0 <= n <= 2 ^ 53)%Z /\
  ((-1074 < e1)%Z -> (2 ^ 52 <= n)%Z).
Proof.
  intros H1 H2 e1 n.
  destruct (scaled_bounds x k e1 H1 H2) as [Hy1 Hy2].
  assert (Hy0 : 0 < x * bpow (- e1)).
  { pose proof (bpow_pos (k - 1 - e1)). lra. }
  split; [split|].
  - apply round_half_even_nonneg. lra.
  - transitivity (2 ^ Z.max (k - e1) 0)%Z.
    + apply round_half_even_le_pow; [lia|].
      pose proof (bpow_le (k - e1) (Z.max (k - e1) 0) ltac:(lia)). lra.
    + apply pow_prec_le. subst e1. fexp_lia.
  - intros He. assert (Hj : (k - 1 - e1 = 52)%Z) by (subst e1; fexp_lia).
    rewrite Hj in Hy1. now apply round_half_even_ge_pow.
Qed.

Lemma binary_round_aux_nearest
    (mx : positive) (ex : Z) (lx : location) (X : Q) :
  inbetween (shr_record_of_loc (Zpos mx) lx) X ->
  (ex <= fexp B64.prec B64.emax (Zpos (digits2_pos mx) + ex))%Z ->
  binary_round_aux B64.prec B64.emax false (Zpos mx) ex lx =
  nearest (Zpos (digits2_pos mx) + ex) (X * bpow ex).
Proof.
  intros HX Hex.
  destruct (inbetween_bounds _ _ HX) as [Hlo Hhi].
  rewrite shr_m_record_of_loc in Hlo, Hhi.
  destruct (mantissa_bounds mx ex X Hlo Hhi) as [Hk1 Hk2].
  set (k := (Zpos (digits2_pos mx) + ex)%Z) in *.
  destruct (scaled_mantissa_bounds _ k Hk1 Hk2) as [[Hn0 Hn1] Hn2].
  pose proof (fexp_ge_emin k) as Hemin.
  unfold nearest.
  remember (fexp B64.prec B64.emax k) as e1 eqn:He1.
  unfold binary_round_aux, shr_fexp. cbn [Zdigits2]. fold k. rewrite <- He1.
  destruct (shr_first mx ex e1 lx X HX Hex) as (r1 & -> & Hm1 & Hin1).
  rewrite (round_nearest_even_inbetween r1 _ Hin1).
  cbv zeta in Hn0, Hn1, Hn2.
  set (n := round_half_even (X * bpow ex * bpow (- e1))) in *.
  destruct n as [|p|p] eqn:En; [ | | lia].
  - (* the result is zero *)
    cbn [Zdigits2]. rewrite shr_nonpos by fexp_lia. reflexivity.
  - cbn [Zdigits2]. destruct (Z.eq_dec (Zpos p) (2 ^ 53)) as [Hp | Hp].
    + (* the mantissa rounds up to the next power of two *)
      injection Hp as ->. unfold pack. cbn [Z.eqb Pos.eqb digits2_pos Pos.succ].
      change (2 ^ B64.prec)%Z with 9007199254740992%Z. cbn [Z.eqb Pos.eqb].
      replace (fexp B64.prec B64.emax (54 + e1) - e1)%Z with 1%Z by fexp_lia.
      cbn [shr iter_pos shr_1 shr_record_of_loc shr_m].
      unfold finite_or_infinity. reflexivity.
    + assert (Hd : (Zpos (digits2_pos p) <= 53)%Z).
      { destruct (digits2_pos_bounds p) as [Hd1 _].
        destruct (Z.le_gt_cases (Zpos (digits2_pos p)) 53) as [|Hgt]; [assumption|].
        assert (2 ^ 53 <= 2 ^ (Zpos (digits2_pos p) - 1))%Z
          by (apply Z.pow_le_mono_r; lia). lia. }
      rewrite shr_nonpos by fexp_lia.
      cbn [shr_m shr_record_of_loc]. unfold pack, finite_or_infinity.
      change (2 ^ B64.prec)%Z with (2 ^ 53)%Z.
      destruct (Z.eqb_spec (Zpos p) 0); [discriminate|].
      destruct (Z.eqb_spec (Zpos p) (2 ^ 53)); [contradiction|].
      reflexivity.
Qed.

End RoundAux.

(* ------------------------------------------------------------------ *)

(** ** Rounding is monotone and gives well-formed doubles *)

Section Nearest.

Lemma digits_53 (p : positive) :
  2 ^ 52 <= Zpos p < 2 ^ 53 -> Zpos (digits2_pos p) = 53.
Proof. intros H. now apply digits2_pos_unique. Qed.

Lemma digits_le_53 (p : positive) :
  Zpos p < 2 ^ 53 -> Zpos (digits2_pos p) <= 53.
Proof.
  intros H. destruct (digits2_pos_bounds p) as [Hd1 _].
  destruct (Z.le_gt_cases (Zpos (digits2_pos p)) 53) as [|Hgt]; [assumption|].
  assert (2 ^ 53 <= 2 ^ (Zpos (digits2_pos p) - 1))
    by (apply Z.pow_le_mono_r; lia). lia.
Qed.

Lemma bounded_intro (p : positive) (e : Z) :
  Zpos p < 2 ^ 53 -> -1074 <= e <= 971 -> (-1074 < e -> 2 ^ 52 <= Zpos p) ->
  bounded B64.prec B64.emax p e = true.
Proof.
  intros Hp He Hn. unfold bounded, canonical_mantissa.
  apply andb_true_intro. split; [|apply Z.leb_le; fexp_lia].
  apply Z.eqb_eq. pose proof (digits_le_53 p Hp) as Hd.
  destruct (Z.eq_dec e (-1074)) as [-> | Hne]; [fexp_lia|].
  rewrite digits_53 by lia. fexp_lia.
Qed.

Lemma bounded_elim (p : positive) (e : Z) :
  bounded B64.prec B64.emax p e = true ->
  Zpos p < 2 ^ 53 /\ -1074 <= e <= 971 /\ (-1074 < e -> 2 ^ 52 <= Zpos p).
Proof.
  unfold bounded, canonical_mantissa. intros H.
  apply andb_prop in H as [Hc He]. apply Z.eqb_eq in Hc. apply Z.leb_le in He.
  destruct (digits2_pos_bounds p) as [Hd1 Hd2].
  set (d := Zpos (digits2_pos p)) in *.
  assert (Hd : d <= 53) by fexp_lia.
  split; [|split].
  - assert (2 ^ d <= 2 ^ 53) by (apply Z.pow_le_mono_r; lia). lia.
  - fexp_lia.
  - intros Hgt. assert (d = 53) by fexp_lia.
    replace (d - 1) with 52 in Hd1 by lia. exact Hd1.
Qed.

Lemma pack_good (n e : Z) :
  0 <= n <= 2 ^ 53 -> -1074 <= e -> (-1074 < e -> 2 ^ 52 <= n) ->
  good (pack n e).
Proof.
  intros Hn He Hlow. unfold pack, finite_or_infinity.
  change (2 ^ B64.prec) with (2 ^ 53). change (B64.emax - B64.prec) with 971.
  change (2 ^ (B64.prec - 1)) with (2 ^ 52).
  destruct (Z.eqb_spec n 0); [split; reflexivity|].
  destruct (Z.eqb_spec n (2 ^ 53)).
  - destruct (Z.leb_spec (e + 1) 971); [|split; reflexivity].
    split; [|reflexivity]. cbn [valid_binary].
    apply bounded_intro; change (Zpos (Z.to_pos (2 ^ 52))) with (2 ^ 52) in *; lia.
  - destruct (Z.leb_spec e 971); [|split; reflexivity].
    split; [|reflexivity]. cbn [valid_binary].
    apply bounded_intro; rewrite ?Z2Pos.id by lia; lia.
Qed.

Lemma rank_pack (n e : Z) :
  0 <= n ->
  rank (pack n e) =
  if n =? 0 then (0, 0, 0)
  else if n =? 2 ^ 53
       then if e + 1 <=? 971 then (1, e + 1, 2 ^ 52) else (2, 0, 0)
       else if e <=? 971 then (1, e, n) else (2, 0, 0).
Proof.
  intros Hn. unfold pack, finite_or_infinity.
  change (2 ^ B64.prec) with (2 ^ 53). change (B64.emax - B64.prec) with 971.
  change (2 ^ (B64.prec - 1)) with (2 ^ 52).
  destruct (Z.eqb_spec n 0); [reflexivity|].
  destruct (Z.eqb_spec n (2 ^ 53)).
  - destruct (Z.leb_spec (e + 1) 971); reflexivity.
  - destruct (Z.leb_spec e 971); [|reflexivity].
    cbn [rank]. now rewrite Z2Pos.id by lia.
Qed.

Lemma pack_not_nan (n e : Z) : is_nan (pack n e) = false.
Proof.
  unfold pack, finite_or_infinity.
  destruct (n =? 0); [reflexivity|].
  destruct (n =? 2 ^ B64.prec);
    [destruct (e + 1 <=? _) | destruct (e <=? _)]; reflexivity.
Qed.

Lemma pack_mono (n e n' e' : Z) :
  0 <= n <= 2 ^ 53 -> 0 <= n' <= 2 ^ 53 ->
  e <= e' -> (e = e' -> n <= n') -> (e < e' -> 2 ^ 52 <= n') ->
  SFleb (pack n e) (pack n' e') = true.
Proof.
  intros Hn Hn' He Heq Hlt. apply SFleb_rank.
  split; [apply pack_not_nan|]. split; [apply pack_not_nan|].
  rewrite !rank_pack by lia.
  change (2 ^ 53) with 9007199254740992 in *.
  change (2 ^ 52) with 4503599627370496 in *.
  destruct (Z.eqb_spec n 0), (Z.eqb_spec n' 0),
    (Z.eqb_spec n 9007199254740992), (Z.eqb_spec n' 9007199254740992),
    (Z.leb_spec (e + 1) 971), (Z.leb_spec (e' + 1) 971),
    (Z.leb_spec e 971), (Z.leb_spec e' 971);
    unfold rank_lt; lia.
Qed.

Local Open Scope Q_scope.

Lemma magnitude_le (x y : Q) (k k' : Z) :
  bpow (k - 1) <= x -> y < bpow k' -> x <= y -> (k <= k')%Z.
Proof.
  intros H1 H2 H. assert (Hlt : bpow (k - 1) < bpow k') by lra.
  apply bpow_lt_inv in Hlt. lia.
Qed.

Lemma nearest_good (k : Z) (x : Q) :
  bpow (k - 1) <= x -> x < bpow k -> good (nearest k x).
Proof.
  intros H1 H2. destruct (scaled_mantissa_bounds x k H1 H2) as [Hn Hlow].
  unfold nearest. apply pack_good; [exact Hn | apply fexp_ge_emin | exact Hlow].
Qed.

(** Rounding to nearest is monotone. *)
Lemma nearest_mono (k k' : Z) (x y : Q) :
  bpow (k - 1) <= x -> x < bpow k ->
  bpow (k' - 1) <= y -> y < bpow k' ->
  x <= y ->
  SFleb (nearest k x) (nearest k' y) = true.
Proof.
  intros Hx1 Hx2 Hy1 Hy2 Hxy.
  pose proof (magnitude_le x y k k' Hx1 Hy2 Hxy) as Hk.
  destruct (scaled_mantissa_bounds x k Hx1 Hx2) as [Hn _].
  destruct (scaled_mantissa_bounds y k' Hy1 Hy2) as [Hn' Hlow'].
  pose proof (fexp_mono k k' Hk) as He. pose proof (fexp_ge_emin k) as Hemin.
  unfold nearest. apply pack_mono; try assumption.
  - intros Heq. rewrite Heq. apply round_half_even_mono. now apply scale_le.
  - intros Hlt. apply Hlow'. lia.
Qed.

End Nearest.

(* ------------------------------------------------------------------ *)

(** ** Values of doubles *)

Section Values.

Local Abbreviation fadd := (SFadd B64.prec B64.emax).
Local Abbreviation fsub := (SFsub B64.prec B64.emax).
Local Abbreviation fmul := (SFmul B64.prec B64.emax).

(** ** Values of well-formed doubles *)

Local Open Scope Q_scope.

Lemma F2Q_pos (m : positive) (e : Z) : 0 < F2Q (Zpos m) e.
Proof.
  unfold F2Q. apply Qmult_lt_0_compat; [reflexivity | apply bpow_pos].
Qed.

Lemma F2Q_le (m m' e : Z) : (m <= m')%Z -> F2Q m e <= F2Q m' e.
Proof. intros H. unfold F2Q. apply scale_le. now rewrite <- Zle_Qle. Qed.

Lemma F2Q_shift (m e d : Z) : (0 <= d)%Z -> F2Q (m * 2 ^ d) (e - d) == F2Q m e.
Proof.
  intros Hd. unfold F2Q. rewrite inject_Z_mult, <- bpow_Z by exact Hd.
  rewrite <- Qmult_assoc, <- bpow_add. now replace (d + (e - d))%Z with e by lia.
Qed.

Lemma F2Q_plus (m m' e : Z) : F2Q (m + m') e == F2Q m e + F2Q m' e.
Proof. unfold F2Q. rewrite inject_Z_plus. ring. Qed.

Lemma F2Q_minus (m m' e : Z) : F2Q (m - m') e == F2Q m e - F2Q m' e.
Proof. unfold F2Q, Z.sub. rewrite inject_Z_plus, inject_Z_opp. ring. Qed.

Lemma F2Q_mult (m m' e e' : Z) : F2Q (m * m') (e + e') == F2Q m e * F2Q m' e'.
Proof. unfold F2Q. rewrite inject_Z_mult, bpow_add. ring. Qed.

Lemma F2Q_le_inv (m m' e : Z) : F2Q m e <= F2Q m' e -> (m <= m')%Z.
Proof.
  unfold F2Q. intros H. rewrite Zle_Qle.
  apply (scale_le _ _ (- e)) in H.
  rewrite <- !Qmult_assoc, !(Qmult_comm (bpow e)), !bpow_opp in H. lra.
Qed.

(** Among well-formed doubles the comparison of the representations is the
    comparison of the values. *)
Lemma valid_le_value (mx my : positive) (ex ey : Z) :
  bounded B64.prec B64.emax mx ex = true ->
  bounded B64.prec B64.emax my ey = true ->
  SFleb (S754_finite false mx ex) (S754_finite false my ey) = true ->
  F2Q (Zpos mx) ex <= F2Q (Zpos my) ey.
Proof.
  intros Hx Hy Hle.
  apply bounded_elim in Hx as (Hx1 & Hx2 & Hx3).
  apply bounded_elim in Hy as (Hy1 & Hy2 & Hy3).
  apply SFleb_rank in Hle as (_ & _ & Hle). cbn [rank] in Hle. unfold rank_lt in Hle.
  destruct (Z.eq_dec ex ey) as [-> | Hne].
  - apply F2Q_le. lia.
  - assert (Hlt : (ex < ey)%Z) by lia.
    assert (H52 : (2 ^ 52 <= Zpos my)%Z) by (apply Hy3; lia).
    apply Qle_trans with (F2Q (2 ^ 53) ex); [apply F2Q_le; lia|].
    apply Qle_trans with (F2Q (2 ^ 52) ey); [|apply F2Q_le; lia].
    unfold F2Q.
    replace ey with ((ey - ex - 1) + (1 + ex))%Z by lia.
    rewrite !bpow_add, bpow_1.
    change (inject_Z (2 ^ 53)) with (2 * inject_Z (2 ^ 52)).
    assert (H1 : 1 <= bpow (ey - ex - 1)).
    { rewrite <- bpow_0. apply bpow_le. lia. }
    pose proof (bpow_pos ex) as H2.
    assert (H3 : 0 < inject_Z (2 ^ 52)) by reflexivity.
    set (c := inject_Z (2 ^ 52)) in *. set (u := bpow ex) in *.
    set (v := bpow (ey - ex - 1)) in *.
    assert (0 <= (v - 1) * (c * u)).
    { apply Qmult_le_0_compat; [lra|].
      apply Qmult_le_0_compat; lra. }
    lra.
Qed.

Lemma nearest_comp (k : Z) (x y : Q) : x == y -> nearest k x = nearest k y.
Proof.
  intros H. unfold nearest.
  now rewrite (round_half_even_comp (x * bpow _) (y * bpow _)) by now rewrite H.
Qed.

(** Rounding a well-formed double gives it back. *)
Lemma nearest_exact (m : positive) (e : Z) :
  bounded B64.prec B64.emax m e = true ->
  nearest (Zpos (digits2_pos m) + e) (F2Q (Zpos m) e) = S754_finite false m e.
Proof.
  intros Hb. pose proof Hb as Hb'.
  apply bounded_elim in Hb' as (H1 & H2 & H3).
  unfold bounded, canonical_mantissa in Hb.
  apply andb_prop in Hb as [Hc He]. apply Z.eqb_eq in Hc.
  unfold nearest. rewrite Hc.
  rewrite (round_half_even_comp _ (inject_Z (Zpos m))).
  - rewrite round_half_even_int. unfold pack, finite_or_infinity.
    change (2 ^ B64.prec)%Z with (2 ^ 53)%Z.
    destruct (Z.eqb_spec (Zpos m) 0); [discriminate|].
    destruct (Z.eqb_spec (Zpos m) (2 ^ 53)); [lia|].
    now rewrite He.
  - unfold F2Q. rewrite <- Qmult_assoc, (Qmult_comm (bpow e)), bpow_opp. ring.
Qed.

(** ** Shapes of good doubles *)

Lemma good_cases (x : spec_float) :
  good x ->
  (exists s, x = S754_zero s) \/
  x = S754_infinity false \/
  (exists m e, x = S754_finite false m e /\
               bounded B64.prec B64.emax m e = true).
Proof.
  intros [Hv Hn]. destruct x as [s | [|] | | [|] m e]; try discriminate; eauto.
  right. right. exists m, e. split; [reflexivity | exact Hv].
Qed.

Lemma good_zero (s : bool) : good (S754_zero s).
Proof. split; reflexivity. Qed.

Lemma good_infinity : good (S754_infinity false).
Proof. split; reflexivity. Qed.

Lemma good_finite (m : positive) (e : Z) :
  bounded B64.prec B64.emax m e = true -> good (S754_finite false m e).
Proof. intros H. split; [exact H | reflexivity]. Qed.

Lemma good_not_nan (x : spec_float) : good x -> is_nan x = false.
Proof. intros [_ H]. now destruct x. Qed.

Lemma zero_le_good (s : bool) (x : spec_float) :
  good x -> SFleb (S754_zero s) x = true.
Proof.
  intros [_ H]. destruct x as [s' | [|] | | [|] m e]; try discriminate; reflexivity.
Qed.

Lemma le_infinity (x : spec_float) :
  is_nan x = false -> SFleb x (S754_infinity false) = true.
Proof. destruct x as [s' | [|] | | [|] m e]; try discriminate; reflexivity. Qed.

Lemma SFleb_refl (x : spec_float) : is_nan x = false -> SFleb x x = true.
Proof.
  intros H. apply SFleb_rank. repeat split; auto.
  destruct (rank x) as [[a b] c]. unfold rank_lt. lia.
Qed.

End Values.

(* ------------------------------------------------------------------ *)

(** ** The arithmetic operations *)

Section Operations.

Local Abbreviation fadd := (SFadd B64.prec B64.emax).
Local Abbreviation fsub := (SFsub B64.prec B64.emax).
Local Abbreviation fmul := (SFmul B64.prec B64.emax).

Lemma iter_xO (m d : positive) :
  Zpos (Pos.iter xO m d) = Zpos m * 2 ^ Zpos d.
Proof.
  induction d as [|d IH] using Pos.peano_ind.
  - cbn [Pos.iter]. change (Zpos m~0) with (2 * Zpos m). change (2 ^ 1) with 2. lia.
  - rewrite Pos.iter_succ, Pos2Z.inj_succ, Z.pow_succ_r by lia.
    change (Zpos (Pos.iter xO m d)~0) with (2 * Zpos (Pos.iter xO m d)).
    rewrite IH. lia.
Qed.

Lemma shl_align_spec (m : positive) (e e' : Z) :
  let '(m', e'') := shl_align m e e' in
  e'' = Z.min e e' /\ Zpos m' = Zpos m * 2 ^ (e - e'').
Proof.
  unfold shl_align. destruct (e' - e) as [|d|d] eqn:E.
  - split; [lia|]. replace (e - e) with 0 by lia. cbn. lia.
  - split; [lia|]. replace (e - e) with 0 by lia. cbn. lia.
  - split; [lia|]. rewrite iter_xO. f_equal. f_equal. lia.
Qed.

Lemma shl_align_fst (m : positive) (e e' : Z) :
  e' <= e -> Zpos (fst (shl_align m e e')) = Zpos m * 2 ^ (e - e').
Proof.
  intros H. pose proof (shl_align_spec m e e') as Hs.
  destruct (shl_align m e e') as [m' e'']. destruct Hs as [-> Hm].
  cbn [fst]. rewrite Hm. f_equal. f_equal. lia.
Qed.

Lemma digits_shift (m : positive) (d : Z) (m' : positive) :
  0 <= d -> Zpos m' = Zpos m * 2 ^ d ->
  Zpos (digits2_pos m') = Zpos (digits2_pos m) + d.
Proof.
  intros Hd E. apply digits2_pos_unique. rewrite E.
  destruct (digits2_pos_bounds m) as [H1 H2].
  replace (Zpos (digits2_pos m) + d - 1) with ((Zpos (digits2_pos m) - 1) + d) by lia.
  rewrite !Z.pow_add_r by lia.
  assert (0 < 2 ^ d) by (apply Z.pow_pos_nonneg; lia).
  split; [apply Z.mul_le_mono_nonneg_r | apply Z.mul_lt_mono_pos_r]; lia.
Qed.

Local Open Scope Q_scope.

Lemma rounds_to_exact (m : positive) (e : Z) (r : spec_float) :
  (e <= fexp B64.prec B64.emax (Zpos (digits2_pos m) + e))%Z ->
  r = binary_round_aux B64.prec B64.emax false (Zpos m) e loc_Exact ->
  rounds_to (F2Q (Zpos m) e) r.
Proof.
  intros He ->. exists (Zpos (digits2_pos m) + e)%Z. split.
  - apply (mantissa_bounds m e (inject_Z (Zpos m))); lra.
  - apply binary_round_aux_nearest; [apply inbetween_record_of_loc_exact | exact He].
Qed.

Lemma binary_round_rounds_to (m : positive) (e : Z) :
  rounds_to (F2Q (Zpos m) e) (binary_round B64.prec B64.emax false m e).
Proof.
  unfold binary_round.
  pose proof (shl_align_spec m e (fexp B64.prec B64.emax (Zpos (digits2_pos m) + e))) as Hs.
  destruct (shl_align m e _) as [m' e']. destruct Hs as [He' Hm'].
  assert (Hd : (0 <= e - e')%Z) by lia.
  pose proof (digits_shift m (e - e') m' Hd Hm') as Hdig.
  destruct (rounds_to_exact m' e' _ ltac:(rewrite Hdig; fexp_lia) eq_refl)
    as (k & Hk & ->).
  exists k. assert (Hv : F2Q (Zpos m') e' == F2Q (Zpos m) e).
  { rewrite Hm'. replace e' with (e - (e - e'))%Z at 2 by lia.
    now apply F2Q_shift. }
  split; [now rewrite <- Hv | now apply nearest_comp].
Qed.

Lemma rounds_to_good (x : Q) (r : spec_float) : rounds_to x r -> good r.
Proof. intros (k & [H1 H2] & ->). now apply nearest_good. Qed.

Lemma rounds_to_mono (x y : Q) (r r' : spec_float) :
  rounds_to x r -> rounds_to y r' -> x <= y -> SFleb r r' = true.
Proof.
  intros (k & [H1 H2] & ->) (k' & [H1' H2'] & ->) Hxy.
  now apply nearest_mono.
Qed.

Lemma rounds_to_comp (x y : Q) (r : spec_float) :
  x == y -> rounds_to x r -> rounds_to y r.
Proof.
  intros E (k & [H1 H2] & ->). exists k.
  split; [split; lra | now apply nearest_comp].
Qed.

Lemma rounds_to_finite (m : positive) (e : Z) :
  bounded B64.prec B64.emax m e = true ->
  rounds_to (F2Q (Zpos m) e) (S754_finite false m e).
Proof.
  intros Hb. exists (Zpos (digits2_pos m) + e)%Z. split.
  - apply (mantissa_bounds m e (inject_Z (Zpos m))); lra.
  - symmetry. now apply nearest_exact.
Qed.

(** ** Multiplication *)

Lemma digits_ge (p : positive) (j : Z) :
  (2 ^ j <= Zpos p)%Z -> (j + 1 <= Zpos (digits2_pos p))%Z.
Proof.
  intros H. destruct (digits2_pos_bounds p) as [_ H2].
  destruct (Z.le_gt_cases (j + 1) (Zpos (digits2_pos p))) as [|Hgt]; [assumption|].
  assert (2 ^ Zpos (digits2_pos p) <= 2 ^ j)%Z by (apply Z.pow_le_mono_r; lia).
  lia.
Qed.

Lemma SFmul_rounds_to (mx my : positive) (ex ey : Z) :
  (2 ^ 52 <= Zpos my)%Z ->
  rounds_to (F2Q (Zpos mx) ex * F2Q (Zpos my) ey)
    (fmul (S754_finite false mx ex) (S754_finite false my ey)).
Proof.
  intros Hy. cbn [SFmul xorb].
  apply (rounds_to_comp (F2Q (Zpos (mx * my)) (ex + ey))).
  - rewrite Pos2Z.inj_mul. apply F2Q_mult.
  - apply rounds_to_exact; [|reflexivity].
    assert (52 + 1 <= Zpos (digits2_pos (mx * my)))%Z.
    { apply digits_ge. rewrite Pos2Z.inj_mul. nia. }
    fexp_lia.
Qed.

(** ** Addition and subtraction *)

Lemma aligned_value (m : positive) (e ez : Z) :
  (ez <= e)%Z -> F2Q (Zpos (fst (shl_align m e ez))) ez == F2Q (Zpos m) e.
Proof.
  intros H. rewrite shl_align_fst by exact H.
  replace ez with (e - (e - ez))%Z at 2 by lia. apply F2Q_shift. lia.
Qed.

Lemma SFadd_rounds_to (mx my : positive) (ex ey : Z) :
  rounds_to (F2Q (Zpos mx) ex + F2Q (Zpos my) ey)
    (fadd (S754_finite false mx ex) (S754_finite false my ey)).
Proof.
  cbn [SFadd cond_Zopp]. set (ez := Z.min ex ey).
  set (ax := fst (shl_align mx ex ez)). set (ay := fst (shl_align my ey ez)).
  change (Zpos ax + Zpos ay)%Z with (Zpos (ax + ay)). cbn [binary_normalize].
  apply (rounds_to_comp (F2Q (Zpos (ax + ay)) ez)); [|apply binary_round_rounds_to].
  rewrite Pos2Z.inj_add, F2Q_plus. subst ax ay.
  rewrite !aligned_value by (subst ez; lia). reflexivity.
Qed.

Lemma SFsub_rounds_to (mx my : positive) (ex ey : Z) :
  F2Q (Zpos my) ey <= F2Q (Zpos mx) ex ->
  let r := fsub (S754_finite false mx ex) (S754_finite false my ey) in
  (F2Q (Zpos mx) ex == F2Q (Zpos my) ey /\ r = S754_zero false) \/
  (F2Q (Zpos my) ey < F2Q (Zpos mx) ex /\
   rounds_to (F2Q (Zpos mx) ex - F2Q (Zpos my) ey) r).
Proof.
  intros Hle r. subst r. cbn [SFsub cond_Zopp]. set (ez := Z.min ex ey).
  set (ax := fst (shl_align mx ex ez)). set (ay := fst (shl_align my ey ez)).
  assert (Hx : F2Q (Zpos ax) ez == F2Q (Zpos mx) ex)
    by (apply aligned_value; subst ez; lia).
  assert (Hy : F2Q (Zpos ay) ez == F2Q (Zpos my) ey)
    by (apply aligned_value; subst ez; lia).
  assert (Ha : (Zpos ay <= Zpos ax)%Z).
  { apply (F2Q_le_inv _ _ ez). now rewrite Hx, Hy. }
  destruct (Zpos ax - Zpos ay)%Z as [|d|d] eqn:E; [ | | lia].
  - left. split; [|reflexivity].
    rewrite <- Hx, <- Hy. now replace (Zpos ax) with (Zpos ay) by lia.
  - right. cbn [binary_normalize].
    assert (Hd : F2Q (Zpos d) ez == F2Q (Zpos mx) ex - F2Q (Zpos my) ey).
    { rewrite <- E, F2Q_minus, Hx, Hy. reflexivity. }
    split.
    + pose proof (F2Q_pos d ez). lra.
    + apply (rounds_to_comp (F2Q (Zpos d) ez)); [exact Hd|].
      apply binary_round_rounds_to.
Qed.

End Operations.

(* ------------------------------------------------------------------ *)

(** ** Division by 100 and [round(x, 2)] *)

Section RoundTwoPlaces.

Local Abbreviation fdiv := (SFdiv B64.prec B64.emax).

Local Open Scope Q_scope.

Lemma to_Q_F2Q (m : positive) (e : Z) :
  B64.to_Q (S754_finite false m e) == F2Q (Zpos m) e.
Proof.
  unfold B64.to_Q, F2Q. destruct e as [|p|p].
  - rewrite bpow_0. change (2 ^ 0)%Z with 1%Z. rewrite Z.mul_1_r. ring.
  - rewrite inject_Z_mult, bpow_Z by lia. reflexivity.
  - pose proof (bpow_opp (Zpos p)) as H. change (- Zpos p)%Z with (Zneg p) in H.
    rewrite (bpow_Z (Zpos p)) in H by lia.
    rewrite Qmake_Qdiv, Pos2Z.inj_pow.
    assert (Hp : 0 < inject_Z (2 ^ Zpos p)).
    { rewrite <- bpow_Z by lia. apply bpow_pos. }
    set (u := inject_Z (2 ^ Zpos p)) in *. set (v := bpow (Zneg p)) in *.
    assert (Hv : v == / u).
    { apply (Qmult_inj_r _ _ u); [lra|]. rewrite H. field. lra. }
    rewrite Hv. field. lra.
Qed.

(** ** Division by 100 *)

Lemma div_100_inbetween (q r : Z) :
  (0 <= r < 100)%Z ->
  inbetween (shr_record_of_loc q (new_location 100 r))
    (inject_Z (100 * q + r) * (1 # 100)).
Proof.
  intros Hr. unfold new_location. cbn [Z.even]. unfold new_location_even.
  assert (HX : inject_Z (100 * q + r) * (1 # 100) ==
               inject_Z q + inject_Z r * (1 # 100)).
  { rewrite inject_Z_plus, inject_Z_mult. change (inject_Z 100) with 100. field. }
  apply (inbetween_comp _ _ _ (Qeq_sym _ _ HX)).
  destruct (Z.eqb_spec r 0) as [-> | Hne].
  - unfold inbetween. cbn. change (inject_Z 0) with 0. ring.
  - assert (H0 : 1 <= inject_Z r) by (change 1 with (inject_Z 1); rewrite <- Zle_Qle; lia).
    assert (H99 : inject_Z r <= 99) by (change 99 with (inject_Z 99); rewrite <- Zle_Qle; lia).
    destruct (Z.compare_spec (2 * r) 100) as [E | E | E]; unfold inbetween; cbn.
    + assert (r = 50)%Z by lia. subst r. change (inject_Z 50) with 50. field.
    + assert (inject_Z r <= 49) by (change 49 with (inject_Z 49); rewrite <- Zle_Qle; lia).
      lra.
    + assert (51 <= inject_Z r) by (change 51 with (inject_Z 51); rewrite <- Zle_Qle; lia).
      lra.
Qed.

Lemma SFdiv_100_rounds_to (n : positive) :
  rounds_to (inject_Z (Zpos n) * (1 # 100))
    (fdiv (S754_finite false n 0) (S754_finite false 100 0)).
Proof.
  cbn [SFdiv xorb]. unfold SFdiv_core_binary. cbn [Zdigits2].
  change (Zpos (digits2_pos 100)) with 7%Z.
  destruct (digits2_pos_bounds n) as [Hd1 Hd2].
  set (d1 := Zpos (digits2_pos n)) in *.
  assert (Hd : (0 < d1)%Z) by (subst d1; lia).
  set (e' := Z.min (fexp B64.prec B64.emax (d1 + 0 - (7 + 0))) (0 - 0)).
  set (s := (0 - 0 - e')%Z).
  assert (Hs : (0 <= s /\ 60 <= d1 + s /\ e' = - s)%Z) by (subst s e'; fexp_lia).
  assert (He' : (e' <= fexp B64.prec B64.emax (d1 - 7))%Z) by (subst e'; fexp_lia).
  clearbody s. clearbody e'.
  set (m' := match s with Z0 => Zpos n | Zpos _ => Z.shiftl (Zpos n) s | Zneg _ => 0%Z end).
  assert (Hm' : m' = (Zpos n * 2 ^ s)%Z).
  { subst m'. destruct s as [|p|p]; [cbn; lia | | lia].
    apply Z.shiftl_mul_pow2. lia. }
  clearbody m'.
  pose proof (Z_div_mod m' 100 eq_refl) as Hdiv.
  destruct (Z.div_eucl m' 100) as [q r]. destruct Hdiv as [Hq Hr].
  set (t := (d1 + s - 8)%Z).
  assert (Ht : (2 ^ t <= q)%Z).
  { assert (Hp : (0 < 2 ^ t)%Z) by (apply Z.pow_pos_nonneg; subst t; lia).
    assert (H128 : (128 * 2 ^ t <= m')%Z).
    { rewrite Hm'. replace (128 * 2 ^ t)%Z with (2 ^ (d1 - 1) * 2 ^ s)%Z.
      - apply Z.mul_le_mono_nonneg_r; [apply Z.pow_nonneg|]; lia.
      - rewrite <- Z.pow_add_r by lia. change 128%Z with (2 ^ 7)%Z.
        rewrite <- Z.pow_add_r by (subst t; lia). f_equal. subst t. lia. }
    lia. }
  assert (Hq0 : (0 < q)%Z).
  { assert (0 < 2 ^ t)%Z by (apply Z.pow_pos_nonneg; subst t; lia). lia. }
  destruct q as [|qp|qp]; [lia | | lia].
  pose proof (digits_ge qp t Ht) as Hdq.
  exists (Zpos (digits2_pos qp) + e')%Z.
  assert (Hin : inbetween (shr_record_of_loc (Zpos qp) (new_location 100 r))
                  (inject_Z m' * (1 # 100))).
  { rewrite Hq. now apply div_100_inbetween. }
  assert (HX : inject_Z m' * (1 # 100) * bpow e' == inject_Z (Zpos n) * (1 # 100)).
  { rewrite Hm', inject_Z_mult, <- bpow_Z by lia.
    destruct Hs as (_ & _ & ->).
    transitivity (inject_Z (Zpos n) * (1 # 100) * (bpow (- s) * bpow s)); [ring|].
    rewrite bpow_opp. ring. }
  split.
  - destruct (inbetween_bounds _ _ Hin) as [Hlo Hhi].
    rewrite shr_m_record_of_loc in Hlo, Hhi.
    pose proof (mantissa_bounds qp e' _ Hlo Hhi) as Hb. cbv zeta in Hb.
    rewrite HX in Hb. exact Hb.
  - rewrite (binary_round_aux_nearest qp e' _ _ Hin) by (subst t; fexp_lia).
    now apply nearest_comp.
Qed.

(** ** [round(x, 2)] *)

Lemma round2_finite (m : positive) (e : Z) :
  let n := round_half_even (F2Q (Zpos m) e * 100) in
  (n = 0%Z /\ B64.round2 (S754_finite false m e) = S754_zero false) \/
  ((0 < n)%Z /\
   rounds_to (inject_Z n * (1 # 100)) (B64.round2 (S754_finite false m e))).
Proof.
  intros n. unfold B64.round2.
  rewrite (round_half_even_comp _ (F2Q (Zpos m) e * 100))
    by now rewrite to_Q_F2Q.
  fold n.
  assert (Hn : (0 <= n)%Z).
  { apply round_half_even_nonneg. pose proof (F2Q_pos m e). lra. }
  destruct n as [|p|p]; [left; split; reflexivity | | lia].
  right. split; [lia | apply SFdiv_100_rounds_to].
Qed.

Lemma round2_good (x : spec_float) : good x -> good (B64.round2 x).
Proof.
  intros Hx. destruct (good_cases x Hx) as [[s ->] | [-> | (m & e & -> & Hb)]].
  - apply good_zero.
  - apply good_infinity.
  - destruct (round2_finite m e) as [[_ ->] | [_ Hr]].
    + apply good_zero.
    + exact (rounds_to_good _ _ Hr).
Qed.

Lemma round2_mono (x y : spec_float) :
  good x -> good y -> SFleb x y = true ->
  SFleb (B64.round2 x) (B64.round2 y) = true.
Proof.
  intros Hx Hy Hle. pose proof (round2_good y Hy) as Hgy.
  destruct (good_cases x Hx) as [[s ->] | [-> | (m & e & -> & Hb)]].
  - now apply zero_le_good.
  - destruct (good_cases y Hy) as [[s ->] | [-> | (m' & e' & -> & Hb')]];
      [discriminate | reflexivity | discriminate].
  - destruct (good_cases y Hy) as [[s ->] | [-> | (m' & e' & -> & Hb')]].
    + discriminate.
    + apply le_infinity. apply good_not_nan. now apply round2_good.
    + pose proof (valid_le_value m m' e e' Hb Hb' Hle) as Hv.
      assert (Hn : (round_half_even (F2Q (Zpos m) e * 100) <=
                    round_half_even (F2Q (Zpos m') e' * 100))%Z).
      { apply round_half_even_mono. lra. }
      destruct (round2_finite m e) as [[_ ->] | [Hp Hr]].
      * now apply zero_le_good.
      * destruct (round2_finite m' e') as [[Hz _] | [Hp' Hr']]; [lia|].
        apply (rounds_to_mono _ _ _ _ Hr Hr').
        rewrite Zle_Qle in Hn. lra.
Qed.

End RoundTwoPlaces.

(* ------------------------------------------------------------------ *)

(** * [calculate_tax] is monotone *)

Section Monotone.

Local Abbreviation fadd := (SFadd B64.prec B64.emax).
Local Abbreviation fsub := (SFsub B64.prec B64.emax).
Local Abbreviation fmul := (SFmul B64.prec B64.emax).
Local Abbreviation floop := (bracket_loop (N := binary64)).

Lemma brackets_ready (st : FilingStatus) : ready 0 (brackets_of st).
Proof. destruct st; vm_compute; repeat split; discriminate. Qed.

Lemma good_le_infinity (x : spec_float) :
  good x -> SFleb x (S754_infinity false) = true.
Proof. intros H. apply le_infinity. now apply good_not_nan. Qed.

Lemma good_le_refl (x : spec_float) : good x -> SFleb x x = true.
Proof. intros H. apply SFleb_refl. now apply good_not_nan. Qed.

(** *** Multiplication by a rate *)

Lemma fmul_good (x r : spec_float) :
  normal_rate r -> good x -> good (fmul x r).
Proof.
  intros Hr Hx. destruct r as [| | |[|] mr er]; try contradiction.
  cbn [normal_rate] in Hr.
  destruct (good_cases x Hx) as [[s ->] | [-> | (m & e & -> & Hb)]].
  - apply good_zero.
  - apply good_infinity.
  - exact (rounds_to_good _ _ (SFmul_rounds_to m mr e er Hr)).
Qed.

Lemma fmul_mono (x y r : spec_float) :
  normal_rate r -> good x -> good y -> SFleb x y = true ->
  SFleb (fmul x r) (fmul y r) = true.
Proof.
  intros Hr Hx Hy Hle. pose proof (fmul_good y r Hr Hy) as Hgy.
  destruct r as [| | |[|] mr er]; try contradiction.
  cbn [normal_rate] in Hr.
  destruct (good_cases x Hx) as [[s ->] | [-> | (m & e & -> & Hb)]].
  - now apply zero_le_good.
  - destruct (good_cases y Hy) as [[s ->] | [-> | (m' & e' & -> & Hb')]];
      [discriminate | reflexivity | discriminate].
  - destruct (good_cases y Hy) as [[s ->] | [-> | (m' & e' & -> & Hb')]].
    + discriminate.
    + change (fmul (S754_infinity false) (S754_finite false mr er))
        with (S754_infinity false).
      apply good_le_infinity. apply fmul_good; [exact Hr | exact Hx].
    + apply (rounds_to_mono _ _ _ _ (SFmul_rounds_to m mr e er Hr)
               (SFmul_rounds_to m' mr e' er Hr)).
      pose proof (valid_le_value m m' e e' Hb Hb' Hle).
      pose proof (F2Q_pos mr er).
      apply Qmult_le_compat_r; lra.
Qed.

(** *** Addition to an accumulator *)

Lemma fadd_good (p t : spec_float) : good p -> good t -> good (fadd p t).
Proof.
  intros Hp Ht.
  destruct (good_cases p Hp) as [[s ->] | [-> | (m & e & -> & Hb)]];
    destruct (good_cases t Ht) as [[s' ->] | [-> | (m' & e' & -> & Hb')]];
    try exact Hp; try exact Ht; try apply good_infinity.
  - destruct s, s'; apply good_zero.
  - exact (rounds_to_good _ _ (SFadd_rounds_to m m' e e')).
Qed.

Lemma fadd_ge (p t : spec_float) :
  good p -> good t -> SFleb p (fadd p t) = true.
Proof.
  intros Hp Ht. pose proof (fadd_good p t Hp Ht) as Hg.
  destruct (good_cases p Hp) as [[s ->] | [-> | (m & e & -> & Hb)]].
  - now apply zero_le_good.
  - destruct (good_cases t Ht) as [[s' ->] | [-> | (m' & e' & -> & Hb')]];
      reflexivity.
  - destruct (good_cases t Ht) as [[s' ->] | [-> | (m' & e' & -> & Hb')]].
    + now apply good_le_refl.
    + reflexivity.
    + apply (rounds_to_mono _ _ _ _ (rounds_to_finite m e Hb)
               (SFadd_rounds_to m m' e e')).
      pose proof (F2Q_pos m' e'). lra.
Qed.

Lemma fadd_mono (p x y : spec_float) :
  good p -> good x -> good y -> SFleb x y = true ->
  SFleb (fadd p x) (fadd p y) = true.
Proof.
  intros Hp Hx Hy Hle. pose proof (fadd_good p y Hp Hy) as Hgy.
  pose proof (fadd_ge p y Hp Hy) as Hge.
  destruct (good_cases x Hx) as [[s ->] | [-> | (m & e & -> & Hb)]].
  - (* x is zero *)
    destruct (good_cases p Hp) as [[sp ->] | [-> | (mp & ep & -> & Hbp)]].
    + apply (SFleb_trans _ (S754_zero sp)); [|exact Hge].
      destruct sp, s; reflexivity.
    + exact Hge.
    + exact Hge.
  - destruct (good_cases y Hy) as [[s ->] | [-> | (m' & e' & -> & Hb')]];
      [discriminate | | discriminate].
    now apply good_le_refl.
  - destruct (good_cases y Hy) as [[s ->] | [-> | (m' & e' & -> & Hb')]].
    + discriminate.
    + assert (Hinf : fadd p (S754_infinity false) = S754_infinity false).
      { destruct (good_cases p Hp) as [[sp ->] | [-> | (mp & ep & -> & Hbp)]];
          reflexivity. }
      rewrite Hinf. apply good_le_infinity. now apply fadd_good.
    + destruct (good_cases p Hp) as [[sp ->] | [-> | (mp & ep & -> & Hbp)]].
      * exact Hle.
      * reflexivity.
      * apply (rounds_to_mono _ _ _ _ (SFadd_rounds_to mp m ep e)
                 (SFadd_rounds_to mp m' ep e')).
        pose proof (valid_le_value m m' e e' Hb Hb' Hle). lra.
Qed.

(** *** Subtraction of a band's lower end *)

Lemma fsub_cases (x l : spec_float) :
  low_ok l -> good x -> SFleb l x = true ->
  (l = S754_zero false /\ fsub x l = x) \/
  (x = S754_infinity false /\ fsub x l = S754_infinity false) \/
  (exists m e ml el,
      x = S754_finite false m e /\ l = S754_finite false ml el /\
      bounded B64.prec B64.emax m e = true /\
      bounded B64.prec B64.emax ml el = true /\
      (F2Q (Zpos ml) el <= F2Q (Zpos m) e)%Q).
Proof.
  intros Hl Hx Hle.
  destruct l as [[|] | | | [|] ml el]; try contradiction.
  - left. split; [reflexivity | apply SFsub_zero_r].
  - cbn [low_ok] in Hl. right.
    destruct (good_cases x Hx) as [[s ->] | [-> | (m & e & -> & Hb)]].
    + discriminate.
    + left. split; reflexivity.
    + right. exists m, e, ml, el. repeat split; try assumption.
      now apply valid_le_value.
Qed.

Lemma fsub_good (x l : spec_float) :
  low_ok l -> good x -> SFleb l x = true -> good (fsub x l).
Proof.
  intros Hl Hx Hle.
  destruct (fsub_cases x l Hl Hx Hle)
    as [[_ ->] | [[_ ->] | (m & e & ml & el & -> & -> & Hb & Hbl & Hv)]].
  - exact Hx.
  - apply good_infinity.
  - destruct (SFsub_rounds_to m ml e el Hv) as [[_ ->] | [_ Hr]].
    + apply good_zero.
    + exact (rounds_to_good _ _ Hr).
Qed.

Lemma fsub_mono (x y l : spec_float) :
  low_ok l -> good x -> good y -> SFleb l x = true -> SFleb x y = true ->
  SFleb (fsub x l) (fsub y l) = true.
Proof.
  intros Hl Hx Hy Hlx Hxy.
  pose proof (SFleb_trans _ _ _ Hlx Hxy) as Hly.
  pose proof (fsub_good y l Hl Hy Hly) as Hgy.
  destruct (fsub_cases x l Hl Hx Hlx)
    as [[Hz ->] | [[-> ->] | (m & e & ml & el & -> & -> & Hb & Hbl & Hv)]].
  - subst l. now rewrite SFsub_zero_r.
  - destruct (good_cases y Hy) as [[s ->] | [-> | (m' & e' & -> & Hb')]];
      [discriminate | | discriminate].
    destruct l as [[|] | | | [|] ml el]; try contradiction; reflexivity.
  - destruct (fsub_cases y _ Hl Hy Hly)
      as [[Hz _] | [[-> ->] | (m' & e' & ml' & el' & -> & Heq & Hb' & _ & Hv')]].
    + discriminate.
    + apply good_le_infinity.
      now apply (fsub_good (S754_finite false m e) (S754_finite false ml el)).
    + injection Heq as <- <-.
      pose proof (valid_le_value m m' e e' Hb Hb' Hxy) as Hvv.
      destruct (SFsub_rounds_to m ml e el Hv) as [[_ ->] | [Hlt Hr]].
      * now apply zero_le_good.
      * destruct (SFsub_rounds_to m' ml e' el Hv') as [[Heq' _] | [_ Hr']].
        -- exfalso. lra.
        -- apply (rounds_to_mono _ _ _ _ Hr Hr'). lra.
Qed.

(** *** One band *)

Lemma partial_good (p x : spec_float) (l : Z) (r : Q) :
  good p -> low_ok (B64.of_Z l) -> normal_rate (B64.of_Q r) ->
  good x -> SFleb (B64.of_Z l) x = true ->
  good (fadd p (fmul (fsub x (B64.of_Z l)) (B64.of_Q r))).
Proof.
  intros Hp Hl Hr Hx Hlx.
  apply fadd_good; [exact Hp|]. apply fmul_good; [exact Hr|].
  now apply fsub_good.
Qed.

Lemma partial_mono (p x y : spec_float) (l : Z) (r : Q) :
  good p -> low_ok (B64.of_Z l) -> normal_rate (B64.of_Q r) ->
  good x -> good y -> SFleb (B64.of_Z l) x = true -> SFleb x y = true ->
  SFleb (fadd p (fmul (fsub x (B64.of_Z l)) (B64.of_Q r)))
        (fadd p (fmul (fsub y (B64.of_Z l)) (B64.of_Q r))) = true.
Proof.
  intros Hp Hl Hr Hx Hy Hlx Hxy.
  pose proof (SFleb_trans _ _ _ Hlx Hxy) as Hly.
  apply fadd_mono; [exact Hp | | | ].
  - apply fmul_good; [exact Hr | now apply fsub_good].
  - apply fmul_good; [exact Hr | now apply fsub_good].
  - apply fmul_mono; [exact Hr | now apply fsub_good | now apply fsub_good |].
    now apply fsub_mono.
Qed.

(** *** The loop *)

Lemma full_band_good (l h : Z) (r : Q) :
  low_ok (B64.of_Z l) -> normal_rate (B64.of_Q r) -> good (B64.of_Z h) ->
  SFleb (B64.of_Z l) (B64.of_Z h) = true ->
  fsub (B64.of_Z h) (B64.of_Z l) = B64.of_Z (h - l) ->
  good (fmul (B64.of_Z (h - l)) (B64.of_Q r)).
Proof.
  intros Hl Hr Hh Hlh <-. apply fmul_good; [exact Hr|]. now apply fsub_good.
Qed.

Lemma floop_good (bands : list band) :
  forall (lo : Z) (p x : spec_float),
    ready lo bands -> good p -> good x -> SFleb (B64.of_Z lo) x = true ->
    good (floop x p bands).
Proof.
  induction bands as [|[l [h|] r] rest IH]; intros lo p x Hr Hp Hx Hlx.
  - exact Hp.
  - cbn [ready low high rate] in Hr.
    destruct Hr as (-> & Hl & Hrate & Hh & Hlh & Hex & Hrest).
    rewrite floop_fin. destruct (SFltb (B64.of_Z h) x) eqn:Hgt.
    + apply (IH h); [exact Hrest | | exact Hx | now apply SFltb_SFleb].
      apply fadd_good; [exact Hp|]. now apply full_band_good.
    + now apply partial_good.
  - cbn [ready low high rate] in Hr. destruct Hr as (-> & Hl & Hrate & _).
    rewrite floop_inf. now apply partial_good.
Qed.

Lemma floop_ge_acc (bands : list band) :
  forall (lo : Z) (p x : spec_float),
    ready lo bands -> good p -> good x -> SFleb (B64.of_Z lo) x = true ->
    SFleb p (floop x p bands) = true.
Proof.
  induction bands as [|[l [h|] r] rest IH]; intros lo p x Hr Hp Hx Hlx.
  - now apply good_le_refl.
  - cbn [ready low high rate] in Hr.
    destruct Hr as (-> & Hl & Hrate & Hh & Hlh & Hex & Hrest).
    rewrite floop_fin. destruct (SFltb (B64.of_Z h) x) eqn:Hgt.
    + pose proof (full_band_good lo h r Hl Hrate Hh Hlh Hex) as Hc.
      apply (SFleb_trans _ (fadd p (fmul (B64.of_Z (h - lo)) (B64.of_Q r)))).
      * now apply fadd_ge.
      * apply (IH h); [exact Hrest | | exact Hx | now apply SFltb_SFleb].
        now apply fadd_good.
    + apply fadd_ge; [exact Hp|]. apply fmul_good; [exact Hrate|].
      now apply fsub_good.
  - cbn [ready low high rate] in Hr. destruct Hr as (-> & Hl & Hrate & _).
    rewrite floop_inf. apply fadd_ge; [exact Hp|].
    apply fmul_good; [exact Hrate|]. now apply fsub_good.
Qed.

Lemma floop_mono (bands : list band) :
  forall (lo : Z) (p a b : spec_float),
    ready lo bands -> good p -> good a -> good b ->
    SFleb (B64.of_Z lo) a = true -> SFleb a b = true ->
    SFleb (floop a p bands) (floop b p bands) = true.
Proof.
  induction bands as [|[l [h|] r] rest IH]; intros lo p a b Hr Hp Ha Hb Hla Hab.
  - now apply good_le_refl.
  - cbn [ready low high rate] in Hr.
    destruct Hr as (-> & Hl & Hrate & Hh & Hlh & Hex & Hrest).
    pose proof (full_band_good lo h r Hl Hrate Hh Hlh Hex) as Hc.
    rewrite !floop_fin.
    destruct (SFltb (B64.of_Z h) a) eqn:Hga, (SFltb (B64.of_Z h) b) eqn:Hgb.
    + apply (IH h); try assumption; [now apply fadd_good | now apply SFltb_SFleb].
    + rewrite (SFltb_SFleb_trans _ _ _ Hga Hab) in Hgb. discriminate.
    + assert (Hah : SFleb a (B64.of_Z h) = true).
      { rewrite SFleb_negb_SFltb, Hga by now apply good_not_nan. reflexivity. }
      apply (SFleb_trans _ (fadd p (fmul (B64.of_Z (h - lo)) (B64.of_Q r)))).
      * rewrite <- Hex. now apply partial_mono.
      * apply (floop_ge_acc rest h); try assumption;
          [now apply fadd_good | now apply SFltb_SFleb].
    + now apply partial_mono.
  - cbn [ready low high rate] in Hr. destruct Hr as (-> & Hl & Hrate & _).
    rewrite !floop_inf. now apply partial_mono.
Qed.

(** Monotonicity of [calculate_tax] over the doubles. *)
Lemma calculate_tax_mono_binary64 (filing_status : string) (a b : spec_float) :
  valid_binary B64.prec B64.emax a = true ->
  valid_binary B64.prec B64.emax b = true ->
  SFleb (B64.of_Z 0) a = true -> SFleb a b = true ->
  SFleb (calculate_tax (N := binary64) a filing_status)
        (calculate_tax (N := binary64) b filing_status) = true.
Proof.
  intros Hva Hvb H0a Hab.
  assert (Ha : good a) by (split; assumption).
  assert (Hb : good b)
    by (split; [assumption | exact (SFleb_trans _ _ _ H0a Hab)]).
  destruct (calculate_tax_table (N := binary64) filing_status) as [st Hst].
  rewrite !Hst. cbn [round2 binary64 of_int].
  pose proof (brackets_ready st) as Hr.
  assert (Hp : good (B64.of_Z 0)) by (split; reflexivity).
  apply round2_mono.
  - now apply (floop_good _ 0).
  - apply (floop_good _ 0); try assumption. exact (SFleb_trans _ _ _ H0a Hab).
  - now apply (floop_mono _ 0).
Qed.

(** The tax of a non-negative income is a non-negative number. *)
Lemma calculate_tax_good (filing_status : string) (x : spec_float) :
  good x -> good (calculate_tax (N := binary64) x filing_status).
Proof.
  intros Hx.
  destruct (calculate_tax_table (N := binary64) filing_status) as [st Hst].
  rewrite Hst. cbn [round2 binary64 of_int]. apply round2_good.
  apply (floop_good _ 0); [apply brackets_ready | split; reflexivity | exact Hx |].
  now apply zero_le_good.
Qed.

(** C5. For every filing status string, [calculate_tax] is monotone
    non-decreasing in the income, in the double-precision arithmetic the
    code runs: for all doubles [0 <= a <= b] (zero of either sign and
    [+inf] included), [calculate_tax(a, status) <= calculate_tax(b, status)]. *)
Theorem calculate_tax_monotone (filing_status : string) (a b : spec_float) :
  valid_binary B64.prec B64.emax a = true ->
  valid_binary B64.prec B64.emax b = true ->
  SFleb (B64.of_Z 0) a = true -> SFleb a b = true ->
  SFleb (calculate_tax (N := binary64) a filing_status)
        (calculate_tax (N := binary64) b filing_status) = true.
Proof. apply calculate_tax_mono_binary64. Qed.

Lemma calculate_tax_monotone_witness :
  SFleb (calculate_tax (N := binary64) (B64.of_Q 44726.24) "single")
        (calculate_tax (N := binary64) (B64.of_Q 44726.25) "single") = true.
Proof.
  apply calculate_tax_monotone; vm_compute; reflexivity.
Defined.

End Monotone.

(* ------------------------------------------------------------------ *)

(** * No jump at a band edge *)

Section Continuity.

Lemma rank_finite_inj (x : spec_float) (m : positive) (e : Z) :
  is_nan x = false -> rank x = (1, e, Zpos m) -> x = S754_finite false m e.
Proof.
  destruct x as [s | [|] | | [|] m' e']; cbn; try discriminate; intros _ H;
    try discriminate.
  now injection H as -> ->.
Qed.

Lemma SFleb_antisym_finite (x : spec_float) (m : positive) (e : Z) :
  SFleb (S754_finite false m e) x = true ->
  SFleb x (S754_finite false m e) = true ->
  x = S754_finite false m e.
Proof.
  intros H1 H2. apply SFleb_rank in H1 as (_ & Hn & H1).
  apply SFleb_rank in H2 as (_ & _ & H2).
  apply rank_finite_inj; [exact Hn|].
  cbn [rank] in *. destruct (rank x) as [[a b] c]. unfold rank_lt in *.
  f_equal; [f_equal|]; lia.
Qed.

(** Between two incomes with the same finite, positive tax every income has
    that tax. *)
Lemma calculate_tax_squeeze
    (filing_status : string) (lo hi x : spec_float) (m : positive) (e : Z) :
  valid_binary B64.prec B64.emax lo = true ->
  valid_binary B64.prec B64.emax hi = true ->
  valid_binary B64.prec B64.emax x = true ->
  SFleb (B64.of_Z 0) lo = true -> SFleb lo x = true -> SFleb x hi = true ->
  calculate_tax (N := binary64) lo filing_status = S754_finite false m e ->
  calculate_tax (N := binary64) hi filing_status = S754_finite false m e ->
  calculate_tax (N := binary64) x filing_status = S754_finite false m e.
Proof.
  intros Hvl Hvh Hvx H0 Hlx Hxh Hl Hh.
  apply SFleb_antisym_finite.
  - rewrite <- Hl. now apply calculate_tax_mono_binary64.
  - rewrite <- Hh. apply calculate_tax_mono_binary64; try assumption.
    exact (SFleb_trans _ _ _ H0 Hlx).
Qed.

Lemma edge_facts (st : FilingStatus) (b : band) (h : Z) :
  In b (brackets_of st) -> high b = Fin h ->
  valid_binary B64.prec B64.emax (B64.of_Z h) = true /\
  valid_binary B64.prec B64.emax (cent_above h) = true /\
  SFleb (B64.of_Z 0) (B64.of_Z h) = true /\
  exists m e,
    calculate_tax (N := binary64) (B64.of_Z h) (status_key st) =
    S754_finite false m e /\
    calculate_tax (N := binary64) (cent_above h) (status_key st) =
    S754_finite false m e.
Proof.
  intros Hin Hh.
  destruct st; simpl in Hin;
    repeat (destruct Hin as [<- | Hin];
            [ first [ discriminate Hh
                    | injection Hh as <-;
                      split; [vm_compute; reflexivity|];
                      split; [vm_compute; reflexivity|];
                      split; [vm_compute; reflexivity|];
                      do 2 eexists; split; vm_compute; reflexivity ] | ]);
    contradiction.
Qed.

(** C9. In the double-precision arithmetic the code runs there is no jump
    at a band edge: for every status and every edge [h] between two bands,
    the tax at [h] itself (computed by the lower band's branch, since
    [h > h] is false) is the tax at every double from [h] up to one cent
    above it (computed by the upper band's branch); and the tax of a zero
    income is [0.0]. *)
Theorem calculate_tax_continuous (st : FilingStatus) :
  calculate_tax (N := binary64) (B64.of_Z 0) (status_key st) = B64.of_Z 0 /\
  forall (b : band) (h : Z),
    In b (brackets_of st) -> high b = Fin h ->
    forall x : spec_float,
      valid_binary B64.prec B64.emax x = true ->
      SFleb (B64.of_Z h) x = true -> SFleb x (cent_above h) = true ->
      calculate_tax (N := binary64) x (status_key st) =
      calculate_tax (N := binary64) (B64.of_Z h) (status_key st).
Proof.
  split; [apply calculate_tax_zero_binary64|].
  intros b h Hin Hh x Hvx Hhx Hxu.
  destruct (edge_facts st b h Hin Hh) as (Hvh & Hvu & H0 & m & e & Hth & Htu).
  rewrite Hth.
  now apply (calculate_tax_squeeze _ (B64.of_Z h) (cent_above h)).
Qed.

Lemma calculate_tax_continuous_witness :
  calculate_tax (N := binary64) (B64.of_Q 11000.005) "single" =
  calculate_tax (N := binary64) (B64.of_Z 11000) "single".
Proof.
  destruct (calculate_tax_continuous Single) as [_ H].
  apply (H (Band 0 (Fin 11000) 0.10) 11000);
    [left; reflexivity | reflexivity | vm_compute; reflexivity ..].
Defined.

End Continuity.

(* ------------------------------------------------------------------ *)

(** * Refund from stored fields *)

Section Idempotent.

Local Abbreviation fdiv := (SFdiv B64.prec B64.emax).

(** ** The sign of [round(x, 2)] *)

Lemma binary_round_aux_opp (mx ex : Z) (lx : location) :
  binary_round_aux B64.prec B64.emax true mx ex lx =
  SFopp (binary_round_aux B64.prec B64.emax false mx ex lx).
Proof.
  unfold binary_round_aux.
  destruct (shr_fexp B64.prec B64.emax mx ex lx) as [mrs' e'].
  destruct (shr_fexp B64.prec B64.emax _ e' loc_Exact) as [mrs'' e''].
  destruct (shr_m mrs''); [reflexivity | | reflexivity].
  destruct (e'' <=? B64.emax - B64.prec); reflexivity.
Qed.

Lemma round2_opp (x : spec_float) : B64.round2 (SFopp x) = SFopp (B64.round2 x).
Proof.
  destruct x as [s | s | | s m e]; try reflexivity.
  cbn [SFopp]. unfold B64.round2.
  destruct (round_half_even _) as [|n|n]; try reflexivity.
  cbn [SFdiv].
  destruct (SFdiv_core_binary _ _ _ _ _ _) as [[mz ez] lz].
  destruct s; cbn [negb xorb].
  - rewrite binary_round_aux_opp.
    now destruct (binary_round_aux _ _ false mz ez lz) as [[|]|[|]| |[|] m' e'].
  - apply binary_round_aux_opp.
Qed.

(** ** [round(x, 2)] is idempotent *)

Local Open Scope Q_scope.

Lemma F2Q_carry (e : Z) : F2Q (2 ^ 52) (e + 1) == F2Q (2 ^ 53) e.
Proof.
  unfold F2Q. rewrite bpow_succ.
  change (inject_Z (2 ^ 53)) with (2 * inject_Z (2 ^ 52)).
  generalize (inject_Z (2 ^ 52)) (bpow e). intros c u. ring.
Qed.

Lemma pack_value (n e1 : Z) (m : positive) (e : Z) :
  (0 <= n)%Z -> pack n e1 = S754_finite false m e ->
  F2Q (Zpos m) e == F2Q n e1.
Proof.
  intros Hn. unfold pack, finite_or_infinity.
  change (2 ^ B64.prec)%Z with (2 ^ 53)%Z.
  change (2 ^ (B64.prec - 1))%Z with (2 ^ 52)%Z.
  destruct (Z.eqb_spec n 0); [discriminate|].
  destruct (Z.eqb_spec n (2 ^ 53)) as [-> | Hne].
  - destruct (e1 + 1 <=? _)%Z; [|discriminate].
    intros H. injection H as <- <-.
    change (Zpos (Z.to_pos (2 ^ 52))) with (2 ^ 52)%Z. apply F2Q_carry.
  - destruct (e1 <=? _)%Z; [|discriminate].
    intros H. injection H as <- <-. now rewrite Z2Pos.id by lia.
Qed.

(** The value of a rounded number is within half a unit of the last place. *)
Lemma nearest_close (k : Z) (x : Q) (m : positive) (e : Z) :
  bpow (k - 1) <= x -> x < bpow k ->
  nearest k x = S754_finite false m e ->
  let u := bpow (fexp B64.prec B64.emax k) in
  F2Q (Zpos m) e - (1 # 2) * u <= x /\ x <= F2Q (Zpos m) e + (1 # 2) * u.
Proof.
  intros H1 H2 Hn u. subst u.
  destruct (scaled_mantissa_bounds x k H1 H2) as [[Hn0 _] _].
  unfold nearest in Hn. cbv zeta in Hn0.
  set (e1 := fexp B64.prec B64.emax k) in *.
  rewrite (pack_value _ e1 m e Hn0 Hn). unfold F2Q.
  destruct (round_half_even_close (x * bpow (- e1))) as [Hc1 Hc2].
  set (n := inject_Z (round_half_even (x * bpow (- e1)))) in *.
  apply (scale_le _ _ e1) in Hc1, Hc2.
  rewrite scale_cancel in Hc1, Hc2.
  split; lra.
Qed.

Lemma round2_finite_eq (m : positive) (e : Z) (n : positive) :
  round_half_even (F2Q (Zpos m) e * 100) = Zpos n ->
  B64.round2 (S754_finite false m e) =
  fdiv (S754_finite false n 0) (S754_finite false 100 0).
Proof.
  intros H. unfold B64.round2.
  rewrite (round_half_even_comp _ (F2Q (Zpos m) e * 100))
    by now rewrite to_Q_F2Q.
  now rewrite H.
Qed.

Lemma pack_exponent (n e1 : Z) (m : positive) (e : Z) :
  pack n e1 = S754_finite false m e -> (e1 <= e)%Z.
Proof.
  unfold pack, finite_or_infinity.
  destruct (n =? 0)%Z; [discriminate|].
  destruct (n =? 2 ^ B64.prec)%Z.
  - destruct (e1 + 1 <=? _)%Z; [|discriminate]. intros H. injection H as _ <-. lia.
  - destruct (e1 <=? _)%Z; [|discriminate]. intros H. injection H as _ <-. lia.
Qed.

Lemma pack_finite (m : positive) (e : Z) :
  (Zpos m < 2 ^ 53)%Z -> (e <= 971)%Z ->
  pack (Zpos m) e = S754_finite false m e.
Proof.
  intros Hm He. unfold pack, finite_or_infinity.
  change (2 ^ B64.prec)%Z with (2 ^ 53)%Z. change (B64.emax - B64.prec)%Z with 971%Z.
  destruct (Z.eqb_spec (Zpos m) 0); [discriminate|].
  destruct (Z.eqb_spec (Zpos m) (2 ^ 53)); [lia|].
  destruct (Z.leb_spec e 971); [reflexivity | lia].
Qed.

Lemma magnitude_unique (x : Q) (k k' : Z) :
  bpow (k - 1) <= x -> x < bpow k -> bpow (k' - 1) <= x -> x < bpow k' ->
  k = k'.
Proof.
  intros H1 H2 H1' H2'.
  pose proof (magnitude_le x x k k' H1 H2' ltac:(lra)).
  pose proof (magnitude_le x x k' k H1' H2 ltac:(lra)). lia.
Qed.

Lemma F2Q_scaled (m e : Z) : F2Q m e * bpow (- e) == inject_Z m.
Proof.
  unfold F2Q. rewrite <- Qmult_assoc, (Qmult_comm (bpow e)), bpow_opp. ring.
Qed.

Lemma F2Q_pow (j e : Z) : (0 <= j)%Z -> F2Q (2 ^ j) e == bpow (j + e).
Proof. intros H. unfold F2Q. now rewrite <- bpow_Z, bpow_add. Qed.

(** A double of magnitude [2 ^ 46] or more is spaced more than a cent from
    its neighbours: rounding it to two decimals gives it back. *)
Lemma round2_fixed_large (m : positive) (e : Z) :
  bounded B64.prec B64.emax m e = true -> (-6 <= e)%Z ->
  B64.round2 (S754_finite false m e) = S754_finite false m e.
Proof.
  intros Hb He. apply bounded_elim in Hb as (Hm1 & He2 & Hm2).
  assert (Hm52 : (2 ^ 52 <= Zpos m)%Z) by (apply Hm2; lia).
  set (v := F2Q (Zpos m) e).
  set (u := bpow e).
  assert (Hu : 1 # 64 <= u).
  { subst u. change (1 # 64) with (bpow (-6)). now apply bpow_le. }
  assert (Hv1 : inject_Z (2 ^ 52) * u <= v).
  { subst v u. apply (F2Q_le (2 ^ 52) (Zpos m) e). exact Hm52. }
  assert (Hv2 : v <= inject_Z (2 ^ 53 - 1) * u).
  { subst v u. apply (F2Q_le (Zpos m) (2 ^ 53 - 1) e). lia. }
  assert (H52 : inject_Z (2 ^ 52) * u == bpow (52 + e)).
  { subst u. apply (F2Q_pow 52 e). lia. }
  assert (H53 : inject_Z (2 ^ 53) * u == bpow (53 + e)).
  { subst u. apply (F2Q_pow 53 e). lia. }
  assert (H53' : inject_Z (2 ^ 53 - 1) * u == bpow (53 + e) - u).
  { rewrite <- H53. change (inject_Z (2 ^ 53 - 1)) with (inject_Z (2 ^ 53) - 1).
    generalize (inject_Z (2 ^ 53)). intros c. ring. }
  assert (Hbig : 1 <= v * 100).
  { assert (inject_Z (2 ^ 52) * (1 # 64) <= inject_Z (2 ^ 52) * u)
      by (apply Qmult_le_l; [reflexivity | exact Hu]).
    assert (1 <= inject_Z (2 ^ 52) * (1 # 64)) by discriminate. lra. }
  destruct (round_half_even_close (v * 100)) as [Hc1 Hc2].
  destruct (round2_finite m e) as [[Hz _] | [Hp (k' & [Hb1 Hb2] & ->)]].
  { exfalso. fold v in Hz. rewrite Hz in Hc2. change (inject_Z 0) with 0 in Hc2. lra. }
  fold v in Hp, Hb1, Hb2 |- *.
  set (n := round_half_even (v * 100)) in *.
  set (q := inject_Z n * (1 # 100)) in *.
  assert (Hq : v - (1 # 200) <= q /\ q <= v + (1 # 200)) by (subst q; split; lra).
  assert (Hlow : bpow (52 + e) <= q).
  { destruct (Z.eq_dec (Zpos m) (2 ^ 52)) as [E | E].
    - (* the double is a power of two: an integer *)
      assert (Hvz : v == inject_Z (2 ^ (52 + e))).
      { subst v. rewrite E, F2Q_pow by lia. apply bpow_Z. lia. }
      assert (Hn : n = (2 ^ (52 + e) * 100)%Z).
      { subst n. rewrite (round_half_even_comp _ (inject_Z (2 ^ (52 + e) * 100))).
        - apply round_half_even_int.
        - rewrite Hvz, inject_Z_mult. reflexivity. }
      subst q. rewrite Hn, inject_Z_mult, <- bpow_Z by lia.
      change (inject_Z 100) with 100. lra.
    - assert (Hv3 : inject_Z (2 ^ 52 + 1) * u <= v).
      { subst v u. apply (F2Q_le (2 ^ 52 + 1) (Zpos m) e). lia. }
      rewrite inject_Z_plus in Hv3. change (inject_Z 1) with 1 in Hv3. lra. }
  assert (Hhigh : q < bpow (53 + e)) by lra.
  assert (Hk : k' = (53 + e)%Z).
  { apply (magnitude_unique q); try assumption.
    now replace (53 + e - 1)%Z with (52 + e)%Z by lia. }
  subst k'. unfold nearest.
  replace (fexp B64.prec B64.emax (53 + e)) with e by fexp_lia.
  rewrite (round_half_even_unique _ (Zpos m)).
  - apply pack_finite; lia.
  - assert (Hs : v * bpow (- e) == inject_Z (Zpos m)) by apply F2Q_scaled.
    assert (Hw : bpow (- e) <= 64).
    { change 64 with (bpow 6). apply bpow_le. lia. }
    pose proof (bpow_pos (- e)) as Hw0. set (w := bpow (- e)) in *.
    assert (0 <= (q - (v - (1 # 200))) * w) by (apply Qmult_le_0_compat; lra).
    lra.
  - assert (Hs : v * bpow (- e) == inject_Z (Zpos m)) by apply F2Q_scaled.
    assert (Hw : bpow (- e) <= 64).
    { change 64 with (bpow 6). apply bpow_le. lia. }
    pose proof (bpow_pos (- e)) as Hw0. set (w := bpow (- e)) in *.
    assert (0 <= (v + (1 # 200) - q) * w) by (apply Qmult_le_0_compat; lra).
    lra.
Qed.

(** Below that magnitude the rounded value is less than half a cent from
    the two-decimal number it was read from. *)
Lemma round2_fixed_small (n m : positive) (e : Z) :
  fdiv (S754_finite false n 0) (S754_finite false 100 0) =
  S754_finite false m e ->
  (e <= -7)%Z ->
  B64.round2 (S754_finite false m e) = S754_finite false m e.
Proof.
  intros Hy He.
  destruct (SFdiv_100_rounds_to n) as (k & [Hb1 Hb2] & Hk).
  rewrite Hy in Hk. symmetry in Hk.
  pose proof (nearest_close k _ m e Hb1 Hb2 Hk) as Hc. cbv zeta in Hc.
  assert (He1 : (fexp B64.prec B64.emax k <= e)%Z)
    by (unfold nearest in Hk; exact (pack_exponent _ _ _ _ Hk)).
  assert (Hu : bpow (fexp B64.prec B64.emax k) <= 1 # 128).
  { change (1 # 128) with (bpow (-7)). apply bpow_le. lia. }
  pose proof (bpow_pos (fexp B64.prec B64.emax k)) as Hu0.
  set (u := bpow (fexp B64.prec B64.emax k)) in *.
  set (v := F2Q (Zpos m) e) in *.
  rewrite <- Hy at 2. apply round2_finite_eq. fold v.
  apply round_half_even_unique; lra.
Qed.

Lemma round2_idem_finite (m : positive) (e : Z) :
  B64.round2 (B64.round2 (S754_finite false m e)) =
  B64.round2 (S754_finite false m e).
Proof.
  destruct (round2_finite m e) as [[_ ->] | [Hp Hr]]; [reflexivity|].
  pose proof (rounds_to_good _ _ Hr) as Hg.
  destruct (round_half_even (F2Q (Zpos m) e * 100)) as [|n|n] eqn:En;
    [lia | | lia].
  rewrite (round2_finite_eq m e n En) in *.
  destruct (good_cases _ Hg) as [[s Hy] | [Hy | (m' & e' & Hy & Hb)]];
    rewrite Hy; try reflexivity.
  destruct (Z.le_gt_cases e' (-7)) as [He | He].
  - now apply (round2_fixed_small n).
  - apply round2_fixed_large; [exact Hb | lia].
Qed.

(** [round(round(x, 2), 2) == round(x, 2)] for every double. *)
Lemma round2_idem (x : spec_float) :
  B64.round2 (B64.round2 x) = B64.round2 x.
Proof.
  destruct x as [s | s | | [|] m e]; try reflexivity.
  - change (S754_finite true m e) with (SFopp (S754_finite false m e)).
    now rewrite !round2_opp, round2_idem_finite.
  - apply round2_idem_finite.
Qed.

(** C2, as the code has it, in double precision.  The stored refund is
    [round(withheld - owed, 2)], where [owed] is the stored Federal Tax Owed
    and [withheld] the amount as given; rebuilding it from the stored
    (rounded) withholding gives the same value whenever
    [round(withheld, 2) == withheld]. *)
Theorem refund_reconstruction
    (filing_status : string) (incomes : list spec_float) (withheld : spec_float) :
  let s := compute_liability (N := binary64) filing_status incomes withheld in
  refund_or_balance_due s =
  B64.round2 (SFsub B64.prec B64.emax withheld (federal_tax_owed s)) /\
  (B64.round2 withheld = withheld ->
   B64.round2 (SFsub B64.prec B64.emax
                 (federal_tax_withheld s) (federal_tax_owed s)) =
   refund_or_balance_due s).
Proof.
  intros s. subst s.
  cbn [federal_tax_withheld federal_tax_owed refund_or_balance_due
       compute_liability].
  cbn [round2 sub binary64].
  unfold calculate_tax. cbn [round2 binary64]. rewrite round2_idem.
  split; [reflexivity|]. intros Hw. now rewrite Hw.
Qed.

Lemma refund_reconstruction_witness :
  B64.round2 (B64.of_Q 1200.10) = B64.of_Q 1200.10 /\
  (let s := compute_liability (N := binary64)
              "single" [B64.of_Z 60000] (B64.of_Q 1200.10) in
   B64.round2 (SFsub B64.prec B64.emax
                 (federal_tax_withheld s) (federal_tax_owed s)) =
   refund_or_balance_due s).
Proof.
  assert (Hw : B64.round2 (B64.of_Q 1200.10) = B64.of_Q 1200.10)
    by (vm_compute; reflexivity).
  split; [exact Hw|].
  exact (proj2 (refund_reconstruction "single" [B64.of_Z 60000]
                  (B64.of_Q 1200.10)) Hw).
Defined.

End Idempotent.

(* ------------------------------------------------------------------ *)

(** * The summary *)

Section Liability.

Local Abbreviation fadd := (SFadd B64.prec B64.emax).
Local Abbreviation fsub := (SFsub B64.prec B64.emax).
Local Abbreviation fmul := (SFmul B64.prec B64.emax).
Local Abbreviation floop := (bracket_loop (N := binary64)).
Local Abbreviation valid := (valid_binary B64.prec B64.emax).

(** ** Well-formedness is kept by the arithmetic of [compute_liability] *)

Lemma SFopp_valid (x : spec_float) : valid x = true -> valid (SFopp x) = true.
Proof. now destruct x. Qed.

Lemma binary_round_valid (s : bool) (m : positive) (e : Z) :
  valid (binary_round B64.prec B64.emax s m e) = true.
Proof.
  pose proof (rounds_to_good _ _ (binary_round_rounds_to m e)) as [Hv _].
  destruct s; [|exact Hv].
  unfold binary_round in *.
  destruct (shl_align m e _) as [mz ez].
  rewrite binary_round_aux_opp. now apply SFopp_valid.
Qed.

Lemma binary_normalize_valid (m e : Z) (s : bool) :
  valid (binary_normalize B64.prec B64.emax m e s) = true.
Proof. destruct m; [reflexivity | apply binary_round_valid ..]. Qed.

Lemma fsub_finite_valid (x : spec_float) (m : positive) (e : Z) :
  bounded B64.prec B64.emax m e = true ->
  valid (fsub x (S754_finite false m e)) = true.
Proof.
  intros Hb.
  destruct x as [[|] | [|] | | sx mx ex]; try reflexivity; try exact Hb.
  apply binary_normalize_valid.
Qed.

(** The deduction used is one of the three amounts of the table. *)
Lemma deduction_cases (k : string) :
  let d := dict_get_default STANDARD_DEDUCTION k
             (dict_get_default STANDARD_DEDUCTION "single" 0) in
  d = 14600 \/ d = 29200 \/ d = 21900.
Proof.
  cbv zeta. unfold dict_get_default at 1.
  destruct (brackets_key k) as [[st ->] | [_ Hd]].
  - rewrite deduction_lookup. destruct st; cbn; auto.
  - rewrite Hd. cbn. auto.
Qed.

Lemma max0_good (x : spec_float) :
  valid x = true -> good (max0 (N := binary64) x).
Proof.
  intros Hx. unfold max0. cbn [gtb of_int binary64]. unfold B64.gtb.
  destruct (SFltb (B64.of_Z 0) x) eqn:E.
  - split; [exact Hx | now apply SFltb_SFleb].
  - split; reflexivity.
Qed.

Lemma owed_good
    (filing_status : string) (incomes : list spec_float) (withheld : spec_float) :
  let s := compute_liability (N := binary64) filing_status incomes withheld in
  good (taxable_income s) /\ good (federal_tax_owed s).
Proof.
  intros s. subst s.
  cbn [taxable_income federal_tax_owed compute_liability].
  pose proof (deduction_cases (replace_space (lower filing_status))) as Hd.
  cbv zeta in Hd.
  set (d := dict_get_default STANDARD_DEDUCTION _ _) in *.
  cbn [round2 sub of_int binary64].
  assert (Ht : good (max0 (N := binary64)
                       (fsub (sum (N := binary64) incomes) (B64.of_Z d)))).
  { apply max0_good.
    destruct Hd as [-> | [-> | ->]]; vm_compute (B64.of_Z _);
      apply fsub_finite_valid; reflexivity. }
  split; apply round2_good; [exact Ht|].
  now apply calculate_tax_good.
Qed.

(** Whatever the status string, the income components and the withholding
    (NaN, infinite and negative amounts included), the stored Taxable
    Income and Federal Tax Owed are numbers that are not below zero. *)
Theorem owed_never_negative
    (filing_status : string) (incomes : list spec_float) (withheld : spec_float) :
  let s := compute_liability (N := binary64) filing_status incomes withheld in
  SFleb (B64.of_Z 0) (taxable_income s) = true /\
  SFleb (B64.of_Z 0) (federal_tax_owed s) = true.
Proof.
  intros s.
  destruct (owed_good filing_status incomes withheld) as [[_ H1] [_ H2]].
  split; assumption.
Qed.

(** ** Married filing separately *)

Lemma calculate_tax_separately (x : spec_float) :
  SFltb (B64.of_Z 346875) x = false ->
  calculate_tax (N := binary64) x "married_filing_separately" =
  calculate_tax (N := binary64) x "single".
Proof.
  intros H.
  assert (H' : SFltb (B64.of_Z 578125) x = false)
    by (apply (gtb_false_above (B64.of_Z 346875)); [reflexivity | exact H]).
  change "married_filing_separately"%string
    with (status_key MarriedFilingSeparately).
  change "single"%string with (status_key Single).
  rewrite !calculate_tax_key. cbn [round2 binary64 of_int]. f_equal.
  cbv [brackets_of single_brackets married_filing_separately_brackets].
  rewrite !floop_fin, !floop_inf, H, H'. reflexivity.
Qed.

(** Up to a taxable income of 346,875 a separate filer owes what a single
    filer owes: the two summaries are the same. *)
Theorem separately_as_single (incomes : list spec_float) (withheld : spec_float) :
  B64.gtb (max0 (N := binary64)
             (SFsub B64.prec B64.emax (sum (N := binary64) incomes)
                (B64.of_Z 14600)))
          (B64.of_Z 346875) = false ->
  compute_liability (N := binary64) "married_filing_separately" incomes withheld =
  compute_liability (N := binary64) "single" incomes withheld.
Proof.
  intros H. unfold compute_liability.
  change (replace_space (lower "married_filing_separately"))
    with "married_filing_separately"%string.
  change (replace_space (lower "single")) with "single"%string.
  change (dict_get_default STANDARD_DEDUCTION "married_filing_separately" _)
    with 14600.
  change (dict_get_default STANDARD_DEDUCTION "single" _) with 14600.
  cbn [sub of_int binary64].
  now rewrite (calculate_tax_separately _ H).
Qed.

Lemma separately_as_single_witness :
  federal_tax_owed
    (compute_liability (N := binary64) "married_filing_separately"
       [B64.of_Z 300000] (B64.of_Z 50000)) =
  federal_tax_owed
    (compute_liability (N := binary64) "single"
       [B64.of_Z 300000] (B64.of_Z 50000)).
Proof.
  rewrite (separately_as_single [B64.of_Z 300000] (B64.of_Z 50000));
    [reflexivity | vm_compute; reflexivity].
Defined.

(** ** The tax is a number that is not below zero *)

(** For an income that is a double not below zero, whatever the status
    string, the tax is a double not below zero: never NaN and never
    negative ([+inf] for an income of [+inf]). *)
Theorem calculate_tax_not_negative (filing_status : string) (income : spec_float) :
  valid_binary B64.prec B64.emax income = true ->
  SFleb (B64.of_Z 0) income = true ->
  valid_binary B64.prec B64.emax
    (calculate_tax (N := binary64) income filing_status) = true /\
  SFleb (B64.of_Z 0) (calculate_tax (N := binary64) income filing_status) = true.
Proof.
  intros Hv H0. exact (calculate_tax_good filing_status income (conj Hv H0)).
Qed.

Lemma calculate_tax_not_negative_witness :
  SFleb (B64.of_Z 0)
    (calculate_tax (N := binary64) (B64.of_Q 44726.25) "head_of_household") = true.
Proof.
  apply (calculate_tax_not_negative "head_of_household" (B64.of_Q 44726.25));
    vm_compute; reflexivity.
Defined.

(** ** The stored amounts are two-decimal values *)

(** Every amount of the summary is left unchanged by a further
    [round(x, 2)]: it is the double nearest to a number with two decimals,
    or zero, an infinity or NaN. *)
Theorem summary_rounded
    (filing_status : string) (incomes : list spec_float) (withheld : spec_float) :
  let s := compute_liability (N := binary64) filing_status incomes withheld in
  B64.round2 (total_income s) = total_income s /\
  B64.round2 (taxable_income s) = taxable_income s /\
  B64.round2 (federal_tax_owed s) = federal_tax_owed s /\
  B64.round2 (federal_tax_withheld s) = federal_tax_withheld s /\
  B64.round2 (refund_or_balance_due s) = refund_or_balance_due s.
Proof.
  intros s. subst s.
  cbn [total_income taxable_income federal_tax_owed federal_tax_withheld
       refund_or_balance_due compute_liability].
  cbn [round2 binary64].
  repeat split; apply round2_idem.
Qed.

End Liability.

(* ------------------------------------------------------------------ *)
(** ** The field normaliser *)

Section ToFloatFacts.

Variable float_of_str : string -> option spec_float.

Lemma to_float_None : to_float float_of_str VNone = Ok (B64.of_Z 0).
Proof. reflexivity. Qed.

Lemma to_float_float (x : spec_float) :
  to_float float_of_str (VFloat x) = Ok x.
Proof. reflexivity. Qed.

Lemma to_float_numeric_string (s : string) (x : spec_float) :
  float_of_str s = Some x -> to_float float_of_str (VStr s) = Ok x.
Proof. intros H. unfold to_float. simpl. now rewrite H. Qed.

Lemma to_float_invalid_string (s : string) :
  float_of_str s = None -> to_float float_of_str (VStr s) = Ok (B64.of_Z 0).
Proof. intros H. unfold to_float. simpl. now rewrite H. Qed.

Lemma to_float_container (v : pyvalue) :
  (exists l, v = VList l) \/ (exists d, v = VDict d) ->
  to_float float_of_str v = Ok (B64.of_Z 0).
Proof. intros [[l ->] | [d ->]]; reflexivity. Qed.

Lemma to_float_int (z : Z) :
  (forall s, B64.of_Z z <> S754_infinity s) ->
  to_float float_of_str (VInt z) = Ok (B64.of_Z z).
Proof.
  intros H. unfold to_float, py_float, float_of_int. cbn [is_not_None].
  destruct (B64.of_Z z) as [s | s | | s m e]; try reflexivity.
  now destruct (H s).
Qed.

(** The only exception that leaves [to_float] is the [OverflowError] of an
    integer beyond the range of a double. *)
Lemma to_float_raises (v : pyvalue) (e : exn) :
  to_float float_of_str v = Raise e ->
  e = OverflowError /\
  exists z s, v = VInt z /\ B64.of_Z z = S754_infinity s.
Proof.
  unfold to_float.
  destruct v as [ | b | z | x | s | l | d]; cbn [is_not_None py_float];
    try discriminate.
  - unfold float_of_int.
    destruct (B64.of_Z z) as [s | s | | s m ex] eqn:Hz; try discriminate.
    intros H. injection H as <-. split; [reflexivity|]. now exists z, s.
  - destruct (float_of_str s); discriminate.
Qed.

(** C8 fails on the code.  [float(10 ** 400)] raises [OverflowError], which
    the handler for [TypeError] and [ValueError] does not catch: the
    normaliser raises instead of returning [0.0]. *)
Theorem to_float_int_overflow :
  to_float float_of_str (VInt (10 ^ 400)) = Raise OverflowError.
Proof. vm_compute. reflexivity. Qed.

End ToFloatFacts.

(* ------------------------------------------------------------------ *)
(** * Aggregation of documents *)

Section IndexFacts.

Variable float_of_str : string -> option spec_float.

Local Abbreviation conv := (to_float float_of_str).
Local Abbreviation agg := (aggregate float_of_str).

Lemma to_float_unusable (v : pyvalue) :
  unusable float_of_str v -> conv v = Ok (B64.of_Z 0).
Proof.
  intros [-> | [(s & -> & Hs) | [[l ->] | [d ->]]]]; try reflexivity.
  now apply to_float_invalid_string.
Qed.

Lemma to_float_overflowing (v : pyvalue) :
  overflowing v -> conv v = Raise OverflowError.
Proof.
  intros (z & s & -> & Hz).
  unfold to_float, py_float, float_of_int. cbn [is_not_None]. now rewrite Hz.
Qed.

Lemma to_float_outcome (v : pyvalue) :
  (exists x, conv v = Ok x) \/ (conv v = Raise OverflowError /\ overflowing v).
Proof.
  destruct (conv v) as [x | e] eqn:Hv; [left; now exists x|].
  destruct (to_float_raises float_of_str v e Hv) as (-> & z & s & Hz & Hinf).
  right. split; [reflexivity|]. now exists z, s.
Qed.

Lemma aggregate_cons (doc : document) (rest : list document)
    (total_income withheld : spec_float) :
  agg (doc :: rest) total_income withheld =
  result_bind (conv (doc_get doc "wages")) (fun wages =>
  result_bind (conv (doc_get doc "interest_income")) (fun interest =>
  result_bind (conv (doc_get doc "nonemployee_compensation")) (fun compensation =>
  result_bind (conv (doc_get doc "federal_income_tax_withheld")) (fun tax_withheld =>
  agg rest
    (SFadd B64.prec B64.emax total_income
       (SFadd B64.prec B64.emax
          (SFadd B64.prec B64.emax wages interest) compensation))
    (SFadd B64.prec B64.emax withheld tax_withheld))))).
Proof. reflexivity. Qed.

(** The aggregation fails exactly when some document carries, in one of
    the four amounts, an integer too large for a double; the exception is
    then [OverflowError] and nothing else is ever raised. *)
Theorem aggregate_raises (docs : list document)
    (total_income withheld : spec_float) :
  (forall e, agg docs total_income withheld = Raise e -> e = OverflowError) /\
  ((exists e, agg docs total_income withheld = Raise e) <->
   Exists has_overflowing_amount docs).
Proof.
  revert total_income withheld.
  induction docs as [|doc rest IH]; intros total_income withheld.
  - split; [discriminate|]. split.
    + intros [e He]. discriminate.
    + intros H. inversion H.
  - rewrite aggregate_cons.
    assert (Hbad : forall name, In name amount_fields ->
                     conv (doc_get doc name) = Raise OverflowError ->
                     overflowing (doc_get doc name) ->
                     Exists has_overflowing_amount (doc :: rest)).
    { intros name Hin _ Hov. apply Exists_cons_hd. now exists name. }
    destruct (to_float_outcome (doc_get doc "wages")) as [[w Hw] | [Hw Ho]];
      rewrite Hw; cbn [result_bind].
    2:{ split; [intros e He; now injection He as <-|].
        split; [intros _; apply (Hbad "wages"%string); cbn; auto
               | intros _; now exists OverflowError]. }
    destruct (to_float_outcome (doc_get doc "interest_income"))
      as [[i Hi] | [Hi Ho]]; rewrite Hi; cbn [result_bind].
    2:{ split; [intros e He; now injection He as <-|].
        split; [intros _; apply (Hbad "interest_income"%string); cbn; auto
               | intros _; now exists OverflowError]. }
    destruct (to_float_outcome (doc_get doc "nonemployee_compensation"))
      as [[c Hc] | [Hc Ho]]; rewrite Hc; cbn [result_bind].
    2:{ split; [intros e He; now injection He as <-|].
        split; [intros _; apply (Hbad "nonemployee_compensation"%string);
                cbn; auto
               | intros _; now exists OverflowError]. }
    destruct (to_float_outcome (doc_get doc "federal_income_tax_withheld"))
      as [[t Ht] | [Ht Ho]]; rewrite Ht; cbn [result_bind].
    2:{ split; [intros e He; now injection He as <-|].
        split; [intros _; apply (Hbad "federal_income_tax_withheld"%string);
                cbn; auto
               | intros _; now exists OverflowError]. }
    destruct (IH (SFadd B64.prec B64.emax total_income
                    (SFadd B64.prec B64.emax (SFadd B64.prec B64.emax w i) c))
                 (SFadd B64.prec B64.emax withheld t)) as [IH1 IH2].
    split; [exact IH1|]. rewrite IH2. split.
    + intros H. now apply Exists_cons_tl.
    + intros H. inversion H as [? ? Hd | ? ? Hr]; subst; [|exact Hr].
      exfalso. destruct Hd as (name & Hin & Hov).
      apply to_float_overflowing in Hov.
      cbn in Hin. destruct Hin as [<- | [<- | [<- | [<- | []]]]]; congruence.
Qed.

Lemma aggregate_no_amount (docs : list document) :
  Forall (has_no_amount float_of_str) docs ->
  agg docs (S754_zero false) (S754_zero false) =
  Ok (S754_zero false, S754_zero false).
Proof.
  induction 1 as [|doc rest Hdoc _ IH]; [reflexivity|].
  rewrite aggregate_cons.
  rewrite !to_float_unusable by (apply Hdoc; cbn; auto 6).
  cbn [result_bind]. exact IH.
Qed.

Lemma liability_zero (filing_status : string) :
  all_zero (compute_liability (N := binary64) filing_status
              [S754_zero false] (S754_zero false)).
Proof.
  assert (H : exists st,
             compute_liability (N := binary64) filing_status
               [S754_zero false] (S754_zero false) =
             liability_of st [S754_zero false] (S754_zero false)).
  { destruct (brackets_key (replace_space (lower filing_status)))
      as [[st Hst] | [Hb Hd]].
    - exists st. now apply compute_liability_known.
    - exists Single. unfold compute_liability, calculate_tax, liability_of.
      unfold dict_mem, dict_get_default. rewrite Hb, Hd. reflexivity. }
  destruct H as [st ->]. unfold all_zero.
  destruct st; vm_compute; repeat split.
Qed.

Lemma index_summary_zero
    (form_status : option string) (docs : list document) :
  Forall (has_no_amount float_of_str) docs ->
  exists s,
    index_summary float_of_str form_status docs = Ok s /\ all_zero s.
Proof.
  intros Hdocs. unfold index_summary.
  change (B64.of_Z 0) with (S754_zero false).
  rewrite (aggregate_no_amount docs Hdocs). cbn [result_bind fst snd].
  eexists. split; [reflexivity|]. apply liability_zero.
Qed.

(** When no document has a usable amount (fields missing, [None], text that
    is not a number, containers), nothing is raised and every amount of the
    summary is [0.0]. *)
Theorem index_summary_no_amount
    (form_status : option string) (docs : list document) :
  Forall (has_no_amount float_of_str) docs ->
  exists s,
    index_summary float_of_str form_status docs = Ok s /\ all_zero s.
Proof. apply index_summary_zero. Qed.

(** A single document whose wages convert to [w] and whose withholding
    converts to [t], with no other income, is summarised as
    [compute_liability(status, [w], t)]. *)
Theorem index_summary_single_document
    (form_status : option string) (doc : document) (w t : spec_float) :
  conv (doc_get doc "wages") = Ok w ->
  unusable float_of_str (doc_get doc "interest_income") ->
  unusable float_of_str (doc_get doc "nonemployee_compensation") ->
  conv (doc_get doc "federal_income_tax_withheld") = Ok t ->
  t <> S754_zero true ->
  index_summary float_of_str form_status [doc] =
  Ok (compute_liability (N := binary64)
        (match form_status with Some s => s | None => "single"%string end)
        [w] t).
Proof.
  intros Hw Hi Hc Ht Hneg. unfold index_summary. rewrite aggregate_cons.
  rewrite Hw, (to_float_unusable _ Hi), (to_float_unusable _ Hc), Ht.
  cbn [result_bind aggregate fst snd].
  change (B64.of_Z 0) with (S754_zero false).
  rewrite (SFadd_zero_l t Hneg).
  f_equal. unfold compute_liability.
  assert (Hsum :
    sum (N := binary64)
      [SFadd B64.prec B64.emax (S754_zero false)
         (SFadd B64.prec B64.emax
            (SFadd B64.prec B64.emax w (S754_zero false)) (S754_zero false))] =
    sum (N := binary64) [w]).
  { unfold sum. cbn [fold_left add of_int binary64].
    destruct w as [[|] | [|] | | [|] m e]; reflexivity. }
  rewrite Hsum. reflexivity.
Qed.

End IndexFacts.

Lemma index_summary_single_document_witness :
  index_summary (fun _ => None) (Some "Single"%string)
    [ [ ("form_type"%string, VStr "W-2");
        ("wages"%string, VFloat (B64.of_Q 52300.50));
        ("federal_income_tax_withheld"%string, VFloat (B64.of_Q 4300.75)) ] ] =
  Ok (compute_liability (N := binary64) "Single"
        [B64.of_Q 52300.50] (B64.of_Q 4300.75)).
Proof.
  apply (index_summary_single_document (fun _ => None) (Some "Single"%string)).
  - reflexivity.
  - left. reflexivity.
  - left. reflexivity.
  - reflexivity.
  - vm_compute. discriminate.
Defined.

Lemma index_summary_no_amount_witness :
  exists s,
    index_summary (fun _ => None) None
      [ [ ("file_name"%string, VStr "w2.pdf");
          ("error"%string, VStr "timeout") ] ] = Ok s /\
    all_zero s.
Proof.
  apply (index_summary_no_amount (fun _ => None) None).
  constructor; [|constructor].
  intros name Hin. left.
  cbn in Hin. destruct Hin as [<- | [<- | [<- | [<- | []]]]]; reflexivity.
Defined.

(* ------------------------------------------------------------------ *)
(** * The document parser *)

Lemma dict_get_set_same {V : Type} (d : dict V) (k : string) (v : V) :
  dict_get (dict_set d k v) k = Some v.
Proof.
  induction d as [|[k' v'] d IH]; cbn [dict_set dict_get].
  - now rewrite String.eqb_refl.
  - destruct (String.eqb k k') eqn:Hk; cbn [dict_get]; rewrite Hk;
      [reflexivity | exact IH].
Qed.

Lemma dict_get_set_other {V : Type} (d : dict V) (k k' : string) (v : V) :
  k' <> k -> dict_get (dict_set d k v) k' = dict_get d k'.
Proof.
  intros Hne. induction d as [|[k0 v0] d IH]; cbn [dict_set dict_get].
  - now rewrite (proj2 (String.eqb_neq k' k) Hne).
  - destruct (String.eqb k k0) eqn:Hk; cbn [dict_get].
    + apply String.eqb_eq in Hk. subst k0.
      now rewrite (proj2 (String.eqb_neq k' k) Hne).
    + now rewrite IH.
Qed.

Lemma dict_set_truthy {V : Type} (d : dict V) (k : string) (v : V) :
  dict_set d k v <> [].
Proof.
  destruct d as [|[k' v'] d]; cbn [dict_set]; [discriminate|].
  destruct (String.eqb k k'); discriminate.
Qed.

Section ParserFacts.

Variable basename : string -> string.
Variable run_model : string -> parse_stage.

Local Abbreviation parse1 := (parse_single_document basename run_model).
Local Abbreviation ploop := (parse_loop basename run_model).

Lemma parse_single_shape (file_path : string) (doc : document) :
  parse1 file_path = Some doc ->
  dict_get doc "file_name" = Some (VStr (basename file_path)) /\
  truthy doc = true /\
  (forall parsed, run_model file_path = ModelJson parsed ->
     forall name, name <> "file_name"%string ->
       dict_get doc name = dict_get parsed name).
Proof.
  unfold parse_single_document.
  destruct (run_model file_path) as [ | message | parsed]; [discriminate | |];
    intros H; injection H as <-.
  - split; [reflexivity|]. split; [reflexivity|]. discriminate.
  - split; [apply dict_get_set_same|]. split.
    + pose proof (dict_set_truthy parsed "file_name" (VStr (basename file_path))).
      destruct (dict_set parsed "file_name" _); [contradiction | reflexivity].
    + intros parsed' Hp name Hname. injection Hp as <-.
      now apply dict_get_set_other.
Qed.

(** Every document the parser returns carries the base name of its file as
    ["file_name"], whatever the model put there; every other field the model
    returned is kept as it is; and the document is never empty. *)
Theorem parse_single_document_file_name (file_path : string) (doc : document) :
  parse1 file_path = Some doc ->
  dict_get doc "file_name" = Some (VStr (basename file_path)) /\
  truthy doc = true /\
  (forall parsed, run_model file_path = ModelJson parsed ->
     forall name, name <> "file_name"%string ->
       dict_get doc name = dict_get parsed name).
Proof. apply parse_single_shape. Qed.

Lemma parse_loop_spec (file_paths : list string) :
  forall results : list document,
    (Exists (fun p => run_model p = ExtractionRaises) file_paths /\
     ploop file_paths results = None) \/
    (Forall (fun p => run_model p <> ExtractionRaises) file_paths /\
     exists docs,
       ploop file_paths results = Some (results ++ docs) /\
       map Some docs = map parse1 file_paths).
Proof.
  induction file_paths as [|path rest IH]; intros results.
  - right. split; [constructor|]. exists []. split; [|reflexivity].
    cbn. now rewrite app_nil_r.
  - cbn [parse_loop map].
    destruct (parse1 path) as [doc|] eqn:Hdoc.
    + destruct (parse_single_shape path doc Hdoc) as (_ & Ht & _).
      rewrite Ht.
      destruct (IH (results ++ [doc])) as [[He Hn] | [Hf (docs & Hs & Hm)]].
      * left. split; [now apply Exists_cons_tl | exact Hn].
      * right. split.
        { constructor; [|exact Hf]. intros E.
          unfold parse_single_document in Hdoc. rewrite E in Hdoc.
          discriminate. }
        exists (doc :: docs). split.
        -- rewrite Hs, <- app_assoc. reflexivity.
        -- cbn [map]. now rewrite Hm.
    + left. split; [|reflexivity]. apply Exists_cons_hd.
      unfold parse_single_document in Hdoc.
      destruct (run_model path); [reflexivity | discriminate ..].
Qed.

(** [parse_multiple_documents] fails exactly when the text extraction of
    some file raises (a failing model call does not stop it); otherwise it
    returns, under the one key ["documents"], one document per path in the
    order of the paths. *)
Theorem parse_multiple_documents_spec (file_paths : list string) :
  (parse_multiple_documents basename run_model file_paths = None <->
   Exists (fun p => run_model p = ExtractionRaises) file_paths) /\
  (forall parsed_all,
      parse_multiple_documents basename run_model file_paths = Some parsed_all ->
      exists docs,
        parsed_all = [("documents"%string, docs)] /\
        map Some docs = map parse1 file_paths /\
        map (fun doc => dict_get doc "file_name") docs =
        map (fun p => Some (VStr (basename p))) file_paths).
Proof.
  unfold parse_multiple_documents.
  destruct (parse_loop_spec file_paths [])
    as [[He Hn] | [Hf (docs & Hs & Hm)]].
  - rewrite Hn. split; [split; auto|]. discriminate.
  - rewrite Hs. cbn [app]. split.
    + split; [discriminate|]. intros He. exfalso.
      apply Exists_exists in He. destruct He as (p & Hin & Hp).
      rewrite Forall_forall in Hf. exact (Hf p Hin Hp).
    + intros parsed_all H. injection H as <-. exists docs.
      split; [reflexivity|]. split; [exact Hm|].
      clear Hs Hf. revert docs Hm.
      induction file_paths as [|p rest IH]; intros docs Hm.
      * destruct docs; [reflexivity | discriminate].
      * destruct docs as [|doc docs]; [discriminate|].
        cbn [map] in Hm |- *. injection Hm as Hdoc Hrest.
        rewrite (IH docs Hrest).
        now rewrite (proj1 (parse_single_shape p doc (eq_sym Hdoc))).
Qed.

End ParserFacts.

Lemma parse_single_document_file_name_witness :
  let doc := [ ("file_name"%string, VStr "guess.pdf");
               ("wages"%string, VInt 52300) ] in
  dict_get (dict_set doc "file_name" (VStr "w2.pdf")) "file_name" =
    Some (VStr "w2.pdf") /\
  dict_get (dict_set doc "file_name" (VStr "w2.pdf")) "wages" =
    Some (VInt 52300).
Proof.
  intros doc.
  destruct (parse_single_document_file_name
              (fun _ => "w2.pdf"%string) (fun _ => ModelJson doc)
              "uploads/w2.pdf"%string
              (dict_set doc "file_name" (VStr "w2.pdf")) eq_refl)
    as (Hname & _ & Hkeep).
  split; [exact Hname|].
  exact (Hkeep doc eq_refl "wages"%string ltac:(discriminate)).
Defined.

(* ------------------------------------------------------------------ *)
(** * Parser and aggregation together *)

Section Pipeline.

Variable basename : string -> string.
Variable run_model : string -> parse_stage.
Variable float_of_str : string -> option spec_float.

Lemma failed_document_no_amount (file_path : string) (doc : document) :
  (exists message, run_model file_path = ModelRaises message) \/
  run_model file_path = ModelJson [] ->
  parse_single_document basename run_model file_path = Some doc ->
  has_no_amount float_of_str doc.
Proof.
  unfold parse_single_document.
  intros [[message ->] | ->] H; injection H as <-;
    intros name Hin; left;
    cbn in Hin; destruct Hin as [<- | [<- | [<- | [<- | []]]]]; reflexivity.
Qed.

(** Files for which the model call fails, or in whose answer no JSON is
    found, do not stop the request and add nothing: if that happens for
    every uploaded file, the summary is computed and all its amounts are
    [0.0]. *)
Theorem failed_parses_give_zero_summary
    (form_status : option string) (file_paths : list string) :
  (forall p, In p file_paths ->
     (exists message, run_model p = ModelRaises message) \/
     run_model p = ModelJson []) ->
  exists docs s,
    parse_multiple_documents basename run_model file_paths =
      Some [("documents"%string, docs)] /\
    List.length docs = List.length file_paths /\
    index_summary float_of_str form_status
      (dict_get_default [("documents"%string, docs)] "documents" []) = Ok s /\
    all_zero s.
Proof.
  intros Hfail. unfold parse_multiple_documents.
  destruct (parse_loop_spec basename run_model file_paths [])
    as [[He _] | [_ (docs & Hs & Hm)]].
  - exfalso. apply Exists_exists in He. destruct He as (p & Hin & Hp).
    destruct (Hfail p Hin) as [[m Hm] | Hm]; congruence.
  - rewrite Hs. cbn [app].
    assert (Hdocs : Forall (has_no_amount float_of_str) docs).
    { clear Hs. revert docs Hm.
      induction file_paths as [|p rest IH]; intros docs Hm.
      - destruct docs; [constructor | discriminate].
      - destruct docs as [|doc docs]; [discriminate|].
        cbn [map] in Hm. injection Hm as Hdoc Hrest. constructor.
        + apply (failed_document_no_amount p doc); [|now symmetry].
          apply Hfail. now left.
        + apply IH; [|exact Hrest]. intros q Hq. apply Hfail. now right. }
    destruct (index_summary_zero float_of_str form_status docs Hdocs)
      as (s & Hsum & Hzero).
    exists docs, s. split; [reflexivity|]. split.
    + rewrite <- (length_map Some docs), Hm. apply length_map.
    + split; [exact Hsum | exact Hzero].
Qed.

End Pipeline.

Lemma failed_parses_give_zero_summary_witness :
  exists docs s,
    parse_multiple_documents (fun p => p) (fun _ => ModelRaises "timeout")
      ["a.pdf"; "b.pdf"]%string = Some [("documents"%string, docs)] /\
    List.length docs = 2%nat /\
    index_summary (fun _ => None) None
      (dict_get_default [("documents"%string, docs)] "documents" []) = Ok s /\
    all_zero s.
Proof.
  apply (failed_parses_give_zero_summary (fun p => p)
           (fun _ => ModelRaises "timeout") (fun _ => None) None
           ["a.pdf"; "b.pdf"]%string).
  intros p _. left. now exists "timeout"%string.
Defined.

(* ------------------------------------------------------------------ *)
(** * The form *)

(** Every amount the form shows is the one [compute_liability] stored
    under the matching key, so no default of [generate_1040] is ever used;
    the summary has no ["Filing Status"] key, so the filing status line
    always reads ["N/A"]. *)
Theorem form_shows_summary (s : TaxSummary (N := binary64)) :
  form_filing_status (summary_dict s) = VStr "N/A" /\
  form_fields (summary_dict s) =
    [ ("Total Income"%string, VFloat (total_income s));
      ("Standard Deduction"%string, VInt (standard_deduction s));
      ("Taxable Income"%string, VFloat (taxable_income s));
      ("Tax (Owed Before Withholding)"%string, VFloat (federal_tax_owed s));
      ("Federal Tax Withheld"%string, VFloat (federal_tax_withheld s));
      ("Refund / Amount Due"%string, VFloat (refund_or_balance_due s)) ] /\
  form_refund (summary_dict s) = VFloat (refund_or_balance_due s).
Proof. repeat split. Qed.

(* ------------------------------------------------------------------ *)
(** * The field normaliser, case by case *)

(** [to_float] raises for one kind of value only, an integer too large for
    a double, and then it is [OverflowError]; every other value gives a
    float: [0.0] for an absent or unusable value, the float itself for a
    float. *)
Theorem to_float_total_except_overflow
    (float_of_str : string -> option spec_float) (v : pyvalue) :
  (overflowing v /\ to_float float_of_str v = Raise OverflowError) \/
  (~ overflowing v /\
   exists x,
     to_float float_of_str v = Ok x /\
     (unusable float_of_str v -> x = B64.of_Z 0) /\
     (forall y, v = VFloat y -> x = y)).
Proof.
  destruct (to_float_outcome float_of_str v) as [[x Hx] | [Hr Ho]].
  - right. split.
    + intros Ho. apply (to_float_overflowing float_of_str) in Ho. congruence.
    + exists x. split; [exact Hx|]. split.
      * intros Hu. apply (to_float_unusable float_of_str) in Hu. congruence.
      * intros y ->. cbn in Hx. now injection Hx.
  - left. split; assumption.
Qed.

(* ------------------------------------------------------------------ *)
(** * Instances *)

Lemma aggregate_raises_witness :
  exists e,
    aggregate (fun _ => None)
      [ [ ("wages"%string, VFloat (B64.of_Z 100)) ];
        [ ("interest_income"%string, VInt (10 ^ 400)) ] ]
      (B64.of_Z 0) (B64.of_Z 0) = Raise e.
Proof.
  apply (proj2 (proj2 (aggregate_raises (fun _ => None) _ _ _))).
  apply Exists_cons_tl. apply Exists_cons_hd.
  exists "interest_income"%string. split; [right; left; reflexivity|].
  exists (10 ^ 400), false. split; [reflexivity | vm_compute; reflexivity].
Defined.

Lemma parse_multiple_documents_spec_witness :
  exists docs,
    [("documents"%string,
      [ [ ("wages"%string, VInt 52300); ("file_name"%string, VStr "w2.pdf") ] ])] =
    [("documents"%string, docs)] /\
    map (fun doc => dict_get doc "file_name") docs = [Some (VStr "w2.pdf")].
Proof.
  destruct (proj2 (parse_multiple_documents_spec (fun p => p)
                     (fun _ => ModelJson [("wages"%string, VInt 52300)])
                     ["w2.pdf"%string]) _ eq_refl)
    as (docs & Hall & _ & Hnames).
  exists docs. split; [exact Hall | exact Hnames].
Defined.

Lemma to_float_total_except_overflow_witness :
  to_float (fun _ => None) (VStr "N/A") = Ok (B64.of_Z 0).
Proof.
  destruct (to_float_total_except_overflow (fun _ => None) (VStr "N/A"))
    as [[(z & s & Hv & _) _] | [_ (x & Hx & Hzero & _)]]; [discriminate|].
  rewrite Hx. f_equal. apply Hzero.
  right. left. exists "N/A"%string. split; reflexivity.
Defined.

